(** * git-lean: commit-graph layout, edge routing and range selection

    A shallow embedding of the webview code that lays out the commit graph
    ([calculateLanes], [areCommitsConsecutive], the [GraphCanvas] row
    drawing, [GraphRenderer.drawGraph] and the range context-menu handler),
    together with the properties the specification states about them.

    Conventions.
    - JavaScript numbers that hold lane numbers and row indices are natural
      numbers here; [findIndex], which answers [-1], is an integer.
    - A JavaScript [Map<string, number>] of which only [has], [get], [set],
      [delete] and the set of [values()] are observed is a [gmap string nat].
    - A [TypeError] (a property read on [undefined]) is [None].
    - The one unbounded loop, the free-lane scan, takes its number of
      permitted loop tests as [fuel] and answers [None] when it runs out.
    - A listener of the page is a function of the script's variables and of
      what it reads of the event and of the DOM.
    - An asynchronous method of the provider is the tree of what it asks of
      its surroundings; a callback is a function of what the command gave. *)

From stdpp Require Import gmap strings list fin_maps fin_sets sorting pretty.
From Stdlib Require Import ZArith QArith Ascii.

Close Scope Q_scope.

(** ** Data model (types.ts) *)

Record GitCommit := mkCommit {
  hash : string;
  shortHash : string;
  message : string;
  date : string;
  author : string;
  parents : list string;
  refs : list string
}.

(** A commit of which only the layout fields matter. *)
Definition commitOf (h : string) (ps : list string) : GitCommit :=
  mkCommit h h "" "" "" ps [].

(** [for (const x of xs) { st = body(st, x) }] where the body may throw. *)
Fixpoint forEach {S A : Type} (body : S → A → option S) (st : S) (xs : list A)
  : option S :=
  match xs with
  | [] => Some st
  | x :: rest => st' ← body st x; forEach body st' rest
  end.

(** ** Lane Allocator (calculateLanes) *)

Module Lanes.

(** The three variables of the pass: [commitLanes], [reservedLanes] and
    [nextLane]. *)
Record state := mkState {
  commitLanes : gmap string nat;
  reservedLanes : gmap string nat;
  nextLane : nat
}.

Definition init : state := mkState ∅ ∅ 0.

(** [new Set(reservedLanes.values())] *)
Definition usedLanesOf (reserved : gmap string nat) : gset nat :=
  map_img reserved.

(** [while (usedLanes.has(newLane)) { newLane++; }]: [fuel] is the number of
    times the loop test may be evaluated. *)
Fixpoint scanFree (fuel : nat) (usedLanes : gset nat) (newLane : nat)
  : option nat :=
  match fuel with
  | 0 => None
  | S fuel' =>
      if decide (newLane ∈ usedLanes)
      then scanFree fuel' usedLanes (S newLane)
      else Some newLane
  end.

(** The body of the loop over [commit.parents[j]], [j >= 1]; the state it
    touches is [reservedLanes] and [nextLane]. *)
Definition reserveExtra (fuel : nat) (st : gmap string nat * nat)
  (parent : string) : option (gmap string nat * nat) :=
  let '(reserved, next) := st in
  match reserved !! parent with
  | Some _ => Some (reserved, next)
  | None =>
      newLane ← scanFree fuel (usedLanesOf reserved) 0;
      Some (<[parent := newLane]> reserved, Nat.max next (newLane + 1))
  end.

(** [if (!reservedLanes.has(firstParent)) reservedLanes.set(firstParent, assignedLane)] *)
Definition reserveFirst (reserved : gmap string nat) (firstParent : string)
  (assignedLane : nat) : gmap string nat :=
  match reserved !! firstParent with
  | Some _ => reserved
  | None => <[firstParent := assignedLane]> reserved
  end.

(** The lane the commit takes, with [reservedLanes] and [nextLane] after it:
    a pending reservation is claimed and deleted, otherwise [nextLane++]. *)
Definition claimLane (st : state) (h : string) : nat * gmap string nat * nat :=
  match reservedLanes st !! h with
  | Some lane => (lane, delete h (reservedLanes st), nextLane st)
  | None => (nextLane st, reservedLanes st, S (nextLane st))
  end.

(** One iteration of [for (const commit of commits)]. *)
Definition processCommit (fuel : nat) (st : state) (commit : GitCommit)
  : option state :=
  let '(assignedLane, reserved, next) := claimLane st (hash commit) in
  let lanes := <[hash commit := assignedLane]> (commitLanes st) in
  match parents commit with
  | [] => Some (mkState lanes reserved next)
  | firstParent :: others =>
      '(reserved', next') ←
        forEach (reserveExtra fuel)
                (reserveFirst reserved firstParent assignedLane, next) others;
      Some (mkState lanes reserved' next')
  end.

(** The pass from an arbitrary state, and the exported function. *)
Definition pass (fuel : nat) (st : state) (commits : list GitCommit)
  : option state :=
  forEach (processCommit fuel) st commits.

Definition calculateLanes (fuel : nat) (commits : list GitCommit)
  : option (gmap string nat) :=
  commitLanes <$> pass fuel init commits.

(** The number of parent entries of a list: no scan of the pass over
    [commits] needs more loop tests than this. *)
Definition parentCount (commits : list GitCommit) : nat :=
  sum_list_with (λ c, length (parents c)) commits.

(** The invariant of the pass. The pending reservations are injective and
    below [nextLane], and so is every lane assigned so far. *)
Definition reservedOk (reserved : gmap string nat) (next : nat) : Prop :=
  (∀ h1 h2 l, reserved !! h1 = Some l → reserved !! h2 = Some l → h1 = h2) ∧
  (∀ h l, reserved !! h = Some l → l < next).

Definition Inv (st : state) : Prop :=
  reservedOk (reservedLanes st) (nextLane st) ∧
  (∀ h l, commitLanes st !! h = Some l → l < nextLane st).

(** A single unbroken parent chain: every commit has exactly one parent, the
    next commit of the list, and the last commit has none. *)
Fixpoint isChain (commits : list GitCommit) : Prop :=
  match commits with
  | [] => True
  | c :: rest =>
      match rest with
      | [] => parents c = []
      | d :: _ => parents c = [hash d] ∧ isChain rest
      end
  end.

End Lanes.

(** ** Selection and range validation (webview script) *)

Module Selection.

(** [areCommitsConsecutive(commits, sortedIndices)]: the loop over
    [i < sortedIndices.length - 1] as a recursion over the adjacent pairs.
    [commits[k]] out of range is [undefined]; reading [.parents] or [.hash]
    of it throws. *)
Fixpoint areCommitsConsecutive (commits : list GitCommit)
  (sortedIndices : list nat) : option bool :=
  match sortedIndices with
  | i :: ((j :: _) as rest) =>
      newer ← commits !! i;
      if decide (length (parents newer) ≠ 1) then Some false
      else
        older ← commits !! j;
        if decide (hash older ∈ parents newer)
        then areCommitsConsecutive commits rest
        else Some false
  | _ => Some true
  end.

(** [Array.from(selectedIndices).sort((a, b) => a - b)] *)
Definition sortIndices (selectedIndices : list nat) : list nat :=
  merge_sort Nat.le selectedIndices.

(** The object handed to [vscode.postMessage]; [parentHash] is [None] when
    [parents[0]] is [undefined]. *)
Record rangeMessage := mkRangeMessage {
  command : string;
  hashes : list string;
  parentHash : option string
}.

(** The click handler of the range context menu, for a click on a menu item
    whose [data-action] is [action]. [selectedIndices] is the selection in
    insertion order. *)
Definition rangeMenuClick (commits : list GitCommit)
  (selectedIndices : list nat) (action : string) : option rangeMessage :=
  let sortedIndices := sortIndices selectedIndices in
  hs ← mapM (λ i, hash <$> commits !! i) sortedIndices;
  oldestIndex ← last sortedIndices;
  oldest ← commits !! oldestIndex;
  Some (mkRangeMessage action hs (parents oldest !! 0)).

End Selection.

(** ** Edge routing and row drawing (GraphCanvas) *)

Module Canvas.

Definition LANE_WIDTH : nat := 18.
Definition ROW_HEIGHT : nat := 28.

(** What one row paints, by lane rather than by pixel: the x position of a
    lane is [px(lane * LANE_WIDTH + 10)] and its colour
    [COLORS[lane % COLORS.length]]. The row's own lane is
    [commitLanes.get(commit.hash)], [None] when the map has no entry. *)
Inductive segment :=
  | Passthrough (pl : nat)
  | UpperHalf (lane : option nat)
  | LowerHalf (lane : option nat)
  | IncomingCurve (childLane lane : option nat)
  | OutgoingCurve (lane : option nat) (parentLane : nat)
  | HeadRing (lane : option nat)
  | Dot (lane : option nat).

(** [commits.findIndex(c => c.hash === h)], whose answer for no match is -1. *)
Fixpoint findIndexFrom (i : nat) (commits : list GitCommit) (h : string) : Z :=
  match commits with
  | [] => (-1)%Z
  | c :: rest =>
      if decide (hash c = h) then Z.of_nat i else findIndexFrom (S i) rest h
  end.

Definition findIndex (commits : list GitCommit) (h : string) : Z :=
  findIndexFrom 0 commits h.

(** [commits[0]], ..., [commits[index - 1]] as the loops [for (i < index)]
    read them; a row past the end of the list is [undefined] and the first
    property read on it throws. *)
Definition rowsBefore (commits : list GitCommit) (index : nat)
  : option (list GitCommit) :=
  mapM (λ i, commits !! i) (seq 0 index).

(** 1. The callback of [commits[i].parents.forEach] in the passthrough loop. *)
Definition passthroughEdge (commits : list GitCommit)
  (commitLanes : gmap string nat) (index : nat) (lane : option nat)
  (parent : string) : list segment :=
  if decide (Z.of_nat index < findIndex commits parent)%Z then
    match commitLanes !! parent with
    | Some pl => if decide (Some pl ≠ lane) then [Passthrough pl] else []
    | None => []
    end
  else [].

(** 2. [p => commits.findIndex(c => c.hash === p) > index] *)
Definition outgoingEdge (commits : list GitCommit) (index : nat)
  (p : string) : bool :=
  bool_decide (Z.of_nat index < findIndex commits p)%Z.

Definition hasIncoming (commits : list GitCommit) (index : nat)
  (commit : GitCommit) : bool :=
  bool_decide (0 < index) &&
  existsb (λ c, bool_decide (hash commit ∈ parents c)) (take index commits).

Definition hasOutgoing (commits : list GitCommit) (index : nat)
  (commit : GitCommit) : bool :=
  existsb (outgoingEdge commits index) (parents commit).

(** 3. The body of the loop over the children, and the callback of
    [commit.parents.forEach]. *)
Definition incomingCurve (commitLanes : gmap string nat) (lane : option nat)
  (commit child : GitCommit) : list segment :=
  if decide (hash commit ∈ parents child) then
    let childLane := commitLanes !! hash child in
    if decide (childLane ≠ lane) then [IncomingCurve childLane lane] else []
  else [].

Definition outgoingCurve (commits : list GitCommit)
  (commitLanes : gmap string nat) (index : nat) (lane : option nat)
  (parent : string) : list segment :=
  if decide (Z.of_nat index < findIndex commits parent)%Z then
    match commitLanes !! parent with
    | Some parentLane =>
        if decide (Some parentLane ≠ lane) then [OutgoingCurve lane parentLane]
        else []
    | None => []
    end
  else [].

(** The effect of [GraphCanvas] once the canvas is mounted: the list of what
    it strokes and fills, in order. *)
Definition GraphCanvas (commit : GitCommit) (index : nat)
  (commits : list GitCommit) (commitLanes : gmap string nat)
  (headCommitHash : option string) : option (list segment) :=
  let lane := commitLanes !! hash commit in
  before ← rowsBefore commits index;
  let passthroughs :=
    before ≫= (λ c, parents c ≫= passthroughEdge commits commitLanes index lane) in
  let own :=
    (if hasIncoming commits index commit then [UpperHalf lane] else []) ++
    (if hasOutgoing commits index commit then [LowerHalf lane] else []) in
  let incoming := before ≫= incomingCurve commitLanes lane commit in
  let outgoing :=
    parents commit ≫= outgoingCurve commits commitLanes index lane in
  let marker :=
    if decide (Some (hash commit) = headCommitHash) then [HeadRing lane]
    else [Dot lane] in
  Some (passthroughs ++ own ++ incoming ++ outgoing ++ marker).

End Canvas.

(** ** Row renderer (GraphRenderer.drawGraph) *)

Module Renderer.

(** [Math.max(...values)]; of no values it is [-Infinity], here [None]. *)
Definition mathMax (values : list nat) : option nat :=
  match values with
  | [] => None
  | v :: rest => Some (foldl Nat.max v rest)
  end.

(** [const maxLane = Math.max(...Array.from(this.commitLanes.values())) + 1;
     const canvasWidth = maxLane * LANE_WIDTH + 12;] *)
Definition canvasWidthOf (commitLanes : gmap string nat) : option nat :=
  m ← mathMax (map_to_list commitLanes).*2;
  let maxLane := m + 1 in
  Some (maxLane * Canvas.LANE_WIDTH + 12).

(** What [drawGraph] sets on one canvas element and paints on it. [width] and
    [height] are the values assigned to the backing store's size,
    [styleWidth] and [styleHeight] the CSS size in px. [dpr] below is the
    value of [window.devicePixelRatio || 1]. *)
Record surface := mkSurface {
  rowIndex : nat;
  width : Q;
  height : Q;
  styleWidth : nat;
  styleHeight : nat;
  painted : list Canvas.segment
}.

Definition scaled (n : nat) (dpr : Q) : Q := (inject_Z (Z.of_nat n) * dpr)%Q.

(** The callback of [canvases.forEach], for the canvas whose [data-index] is
    [index]. Its drawing code is that of [GraphCanvas]. *)
Definition drawCanvas (commits : list GitCommit)
  (commitLanes : gmap string nat) (headCommitHash : option string)
  (canvasWidth : nat) (dpr : Q) (index : nat) : option surface :=
  commit ← commits !! index;
  segs ← Canvas.GraphCanvas commit index commits commitLanes headCommitHash;
  Some (mkSurface index (scaled canvasWidth dpr) (scaled Canvas.ROW_HEIGHT dpr)
                  canvasWidth Canvas.ROW_HEIGHT segs).

(** [drawGraph] on a fresh renderer over the page's canvases, one per row
    with [data-index] 0, 1, ...; the page calls it when [commits.length > 0]. *)
Definition drawGraph (fuel : nat) (commits : list GitCommit)
  (headCommitHash : option string) (dpr : Q) : option (list surface) :=
  commitLanes ← Lanes.calculateLanes fuel commits;
  canvasWidth ← canvasWidthOf commitLanes;
  mapM (drawCanvas commits commitLanes headCommitHash canvasWidth dpr)
       (seq 0 (length commits)).

End Renderer.

(** ** The page script: selection state and menus (getHtmlForWebview) *)

Module Page.

(** A [tr] of [commit-tbody] as the handlers read it: its [dataset]. *)
Record row := mkRow {
  commitIndex : nat;
  commitHash : string
}.

(** The rows the template renders, one per commit, for hashes that the HTML
    attribute [data-commit-hash] holds verbatim (git's are hexadecimal). *)
Definition rows (commits : list GitCommit) : list row :=
  imap (λ i c, mkRow i (hash c)) commits.

(** The variables of the script, with what is displayed of the two menus and
    of the squash item ([selectedIndices] is the [Set] in insertion order). *)
Record pageState := mkPage {
  selectedCommitHash : option string;
  selectedRow : option row;
  rangeStartIndex : option nat;
  selectedIndices : list nat;
  contextMenuShown : bool;
  rangeMenuShown : bool;
  squashItemShown : bool
}.

Definition initial : pageState := mkPage None None None [] false false true.

(** [contextMenu.style.display = 'none'; rangeContextMenu.style.display = 'none'],
    the listener of [document] for [click]. *)
Definition hideMenus (st : pageState) : pageState :=
  mkPage (selectedCommitHash st) (selectedRow st) (rangeStartIndex st)
         (selectedIndices st) false false (squashItemShown st).

(** The [click] listener of [commit-tbody]; [target] is
    [e.target.closest('tr')]. *)
Definition tbodyClick (st : pageState) (target : option row) (shiftKey : bool)
  : pageState :=
  match target with
  | None => st
  | Some r =>
      let clickedIndex := commitIndex r in
      match (if shiftKey then rangeStartIndex st else None) with
      | Some start =>
          let min := Nat.min start clickedIndex in
          let max := Nat.max start clickedIndex in
          mkPage (selectedCommitHash st) (selectedRow st) (rangeStartIndex st)
                 (seq min (S (max - min)))
                 (contextMenuShown st) (rangeMenuShown st) (squashItemShown st)
      | None =>
          mkPage (selectedCommitHash st) (selectedRow st) (Some clickedIndex)
                 [clickedIndex]
                 (contextMenuShown st) (rangeMenuShown st) (squashItemShown st)
      end
  end.

(** The [contextmenu] listener of [commit-tbody]. [None] is the [TypeError]
    of [areCommitsConsecutive] on a selected index that is no row. *)
Definition tbodyContextMenu (commits : list GitCommit) (st : pageState)
  (target : option row) : option pageState :=
  let st := hideMenus st in
  match target with
  | None => Some st
  | Some r =>
      let clickedIndex := commitIndex r in
      if decide (1 < length (selectedIndices st) ∧
                 clickedIndex ∈ selectedIndices st)
      then
        let sortedIndices := Selection.sortIndices (selectedIndices st) in
        consecutive ← Selection.areCommitsConsecutive commits sortedIndices;
        Some (mkPage (selectedCommitHash st) (selectedRow st)
                     (rangeStartIndex st) (selectedIndices st)
                     false true consecutive)
      else
        Some (mkPage (Some (commitHash r)) (Some r) (Some clickedIndex)
                     [clickedIndex] true false (squashItemShown st))
  end.

(** What a handler hands to [vscode.postMessage]. *)
Inductive posted :=
  | PostCommit (command commitHash : string)
  | PostRange (m : Selection.rangeMessage).

(** The [click] listener of the single-commit menu; [item] is the
    [data-action] of [e.target.closest('.context-menu-item')]. For
    [editCommitMessage] it reads the DOM: [messageText] is the [textContent]
    of what [selectedRow.querySelector('.message-text')] answers, and [None]
    when the answer is [null], the span being out of the row while an inline
    input stands in its place. The result [None] is the [TypeError] of
    [selectedRow.querySelector] on a [null] row or of
    [messageText.textContent] on a [null] span. Otherwise the branch puts the
    inline input in the place of the span and posts nothing itself. *)
Definition contextMenuClick (st : pageState) (item : option string)
  (messageText : option string) : option (pageState * list posted) :=
  match item, selectedCommitHash st with
  | Some action, Some h =>
      if decide (h = "") then Some (st, [])
      else
        let st' :=
          mkPage (selectedCommitHash st) (selectedRow st) (rangeStartIndex st)
                 (selectedIndices st) false (rangeMenuShown st)
                 (squashItemShown st) in
        if decide (action = "editCommitMessage") then
          match selectedRow st, messageText with
          | Some _, Some original => Some (st', [])
          | _, _ => None
          end
        else Some (st', [PostCommit action h])
  | _, _ => Some (st, [])
  end.

(** The [click] listener of the range menu. *)
Definition rangeMenuItemClick (commits : list GitCommit) (st : pageState)
  (item : option string) : option (pageState * list posted) :=
  match item with
  | None => Some (st, [])
  | Some action =>
      msg ← Selection.rangeMenuClick commits (selectedIndices st) action;
      Some (mkPage (selectedCommitHash st) (selectedRow st)
                   (rangeStartIndex st) (selectedIndices st)
                   (contextMenuShown st) false (squashItemShown st),
            [PostRange msg])
  end.

(** The events the listeners of the table, of the two menus and of
    [document] are registered for, each with what its listener reads of the
    event and of the DOM. A click bubbles to [document], whose listener runs
    after the element's own. *)
Inductive event :=
  | TbodyClick (target : option row) (shiftKey : bool)
  | TbodyContextMenu (target : option row)
  | MenuClick (item : option string) (messageText : option string)
  | RangeMenuClick (item : option string)
  | OtherClick.

Definition step (commits : list GitCommit) (st : pageState) (ev : event)
  : option (pageState * list posted) :=
  match ev with
  | TbodyClick target shiftKey =>
      Some (hideMenus (tbodyClick st target shiftKey), [])
  | TbodyContextMenu target =>
      st' ← tbodyContextMenu commits st target; Some (st', [])
  | MenuClick item messageText =>
      '(st', out) ← contextMenuClick st item messageText;
      Some (hideMenus st', out)
  | RangeMenuClick item =>
      '(st', out) ← rangeMenuItemClick commits st item;
      Some (hideMenus st', out)
  | OtherClick => Some (hideMenus st, [])
  end.

(** The events a user can produce on the page rendered from [commits]: the
    target of a mouse event on the table is one of its rows or none, and a
    menu item can be clicked while it is displayed. *)
Definition possible (commits : list GitCommit) (st : pageState) (ev : event)
  : Prop :=
  match ev with
  | TbodyClick target _ | TbodyContextMenu target =>
      ∀ r, target = Some r → r ∈ rows commits
  | MenuClick _ _ => contextMenuShown st = true
  | RangeMenuClick item =>
      rangeMenuShown st = true ∧
      (item = Some "squashCommits" → squashItemShown st = true)
  | OtherClick => True
  end.

(** The states of the page after any number of events. *)
Inductive reachable (commits : list GitCommit) : pageState → Prop :=
  | reachable_init : reachable commits initial
  | reachable_step st ev st' out :
      reachable commits st → possible commits st ev →
      step commits st ev = Some (st', out) → reachable commits st'.

(** What holds of every reachable state: the selection is empty with no
    anchor, or a run of consecutive existing rows that contains the anchor;
    the single-commit menu is displayed only over one selected row, whose hash
    is the recorded one; the range menu is displayed only over two or more
    rows, with the squash item displayed as the consecutiveness test says. *)
Definition Consistent (commits : list GitCommit) (st : pageState) : Prop :=
  match rangeStartIndex st with
  | None => selectedIndices st = []
  | Some a =>
      ∃ lo n, selectedIndices st = seq lo (S n) ∧ lo ≤ a ∧ a ≤ lo + n ∧
              lo + n < length commits
  end ∧
  (contextMenuShown st = true →
   rangeMenuShown st = false ∧
   ∃ i c, selectedIndices st = [i] ∧ commits !! i = Some c ∧
          selectedCommitHash st = Some (hash c)) ∧
  (rangeMenuShown st = true →
   2 ≤ length (selectedIndices st) ∧
   Selection.areCommitsConsecutive commits (selectedIndices st)
     = Some (squashItemShown st)).

(** [(commits.find(c => c.refs.some(r => r.startsWith('HEAD -> ') || r === 'HEAD'))
      || commits[0])?.hash] *)
Definition isHeadRef (r : string) : bool :=
  String.prefix "HEAD -> " r || bool_decide (r = "HEAD").

Definition headCommitHash (commits : list GitCommit) : option string :=
  hash <$> (match List.find (λ c, existsb isHeadRef (refs c)) commits with
            | Some c => Some c
            | None => commits !! 0
            end).

End Page.

(** ** HTML escaping (escapeHtml, esc, escHtml) *)

Module Html.

(** [text.replace(/c/g, by)] for a pattern that is the one character [c]. *)
Fixpoint replaceAll (c : ascii) (by_ : string) (text : string) : string :=
  match text with
  | EmptyString => EmptyString
  | String a rest =>
      if decide (a = c) then (by_ ++ replaceAll c by_ rest)%string
      else String a (replaceAll c by_ rest)
  end.

(** The double quote, code 34. *)
Definition dquote : ascii := "034"%char.

(** [escapeHtml] of the graph page. *)
Definition escapeHtml (text : string) : string :=
  replaceAll "'" "&#039;"
    (replaceAll dquote "&quot;"
       (replaceAll ">" "&gt;"
          (replaceAll "<" "&lt;"
             (replaceAll "&" "&amp;" text)))).

(** [esc] of the commit details page. *)
Definition esc (s : string) : string :=
  replaceAll dquote "&quot;"
    (replaceAll ">" "&gt;"
       (replaceAll "<" "&lt;"
          (replaceAll "&" "&amp;" s))).

(** [escHtml] of the commit details page's script. *)
Definition escHtml (s : string) : string :=
  replaceAll ">" "&gt;" (replaceAll "<" "&lt;" (replaceAll "&" "&amp;" s)).

(** The characters of a string. *)
Definition chars (s : string) : list ascii := String.list_ascii_of_string s.

End Html.

(** ** Reading the log (GitGraphViewProvider.getGitLog) *)

Module GitLog.

(** [s.split(c)] for a separator that is the one character [c]; of the empty
    string it is the list of the empty string. *)
Fixpoint splitOn (c : ascii) (s : string) : list string :=
  match s with
  | EmptyString => [EmptyString]
  | String a rest =>
      if decide (a = c) then EmptyString :: splitOn c rest
      else match splitOn c rest with
           | [] => [String a EmptyString]
           | x :: xs => String a x :: xs
           end
  end.

(** [parts.join(sep)] *)
Fixpoint join (sep : string) (parts : list string) : string :=
  match parts with
  | [] => EmptyString
  | [x] => x
  | x :: rest => (x ++ sep ++ join sep rest)%string
  end.

Section parse.
(** [String.prototype.trim] and [new Date(d).toLocaleString()], which the
    parser applies and this file does not define. *)
Variable trim : string → string.
Variable toLocaleString : string → string.

(** [x => x] as a filter: the strings that are not empty. *)
Definition nonEmpty (l : list string) : list string :=
  filter (λ x, x ≠ EmptyString) l.

(** [parents.trim().split(' ').map(p => p.trim()).filter(p => p)] *)
Definition parseParents (parents : string) : list string :=
  nonEmpty (trim <$> splitOn " " (trim parents)).

(** [refs.trim().split(',').map(r => r.trim()).filter(r => r)] *)
Definition parseRefs (refs : string) : list string :=
  nonEmpty (trim <$> splitOn "," (trim refs)).

(** The callback of [.map(line => ...)]. With fewer than six fields [refs]
    is [undefined] and [refs.trim()] throws. *)
Definition parseLine (line : string) : option GitCommit :=
  match splitOn "|" line with
  | fullHash :: shortHash :: parents :: author :: date :: refs
      :: messageParts =>
      let refList := parseRefs refs in
      Some (mkCommit (trim fullHash) (trim shortHash)
                     (trim (join "|" messageParts))
                     (toLocaleString date) (trim author)
                     (parseParents parents) refList)
  | _ => None
  end.

(** [stdout.split('\n').filter(line => line.trim()).map(...)] *)
Definition parseLog (stdout : string) : option (list GitCommit) :=
  mapM parseLine
       (filter (λ line, trim line ≠ EmptyString) (splitOn "010" stdout)).
End parse.

End GitLog.

(** ** The provider's range actions (squashCommits, cherryPickRange) *)

Module Extension.

(** What [cp.exec] hands to its callback: [error], [None] for [null] and
    otherwise the [message] of the error; [stdout]; [stderr]. *)
Record execResult := mkExecResult {
  error : option string;
  stdout : string;
  stderr : string
}.

(** The webviews a provider refreshes: [this._view.webview] and
    [GitGraphViewProvider.currentPanel.webview]. *)
Inductive webview := View | Panel.

(** The two scripts of the interactive rebase, by the data spliced into
    their text with [JSON.stringify]: the sequence editor, which turns the
    [pick] of every line whose hash one of [squashHashes] starts with into
    [squash], and the message editor, which writes [text] over the proposed
    message. *)
Inductive script :=
  | SeqEditorScript (squashHashes : list string)
  | MsgEditorScript (text : string).

(** What a method does to its surroundings, as a tree in the order of the
    program. [next] is what follows in the same turn. The [callback] of
    [Exec] and the [resume] of [Later] and of [ShowInputBox] run in a later
    turn: the callback when the command has ended, with what it gave; the
    rest of an [async] method after an [await], with what was awaited
    ([None] from the input box is [undefined], the box dismissed).
    [editors] are the values of [GIT_SEQUENCE_EDITOR] and [GIT_EDITOR] added
    to the environment of the command. [WriteFileSync] goes on to [next]
    when the write has not thrown, [UnlinkSync] in any case, its exception
    being caught. [SetHtml w commits] is
    [w.html = this.getHtmlForWebview(w, commits)]. *)
Inductive proc :=
  | Return
  | ShowErrorMessage (text : string) (next : proc)
  | ShowInformationMessage (text : string) (next : proc)
  | ShowInputBox (prompt placeHolder : string)
                 (validateInput : string → option string)
                 (resume : option string → proc)
  | Exec (command cwd : string) (editors : option (string * string))
         (callback : execResult → proc) (next : proc)
  | Later (resume : proc) (next : proc)
  | WriteFileSync (path : string) (data : script) (next : proc)
  | UnlinkSync (path : string) (next : proc)
  | SetHtml (w : webview) (commits : list GitCommit) (next : proc).

(** What the methods read of the provider and of the workspace:
    whether [this._view] and [GitGraphViewProvider.currentPanel] are set,
    [this._filterBranch] ([None] for [null]), and the [uri.fsPath] of
    [vscode.workspace.workspaceFolders[0]] ([None] when there are no
    workspace folders). *)
Record provider := mkProvider {
  view : bool;
  panel : bool;
  filterBranch : option string;
  workspaceFolders : option string
}.

(** [hashes.slice(0, -1)] *)
Definition allButLast (hashes : list string) : list string :=
  take (length hashes - 1) hashes.

(** The command of [getGitLog]. *)
Definition gitCommand (p : provider) : string :=
  let branchArg :=
    match filterBranch p with
    | Some branch => if decide (branch = "") then "" else (" " ++ branch)%string
    | None => ""
    end in
  ("git log" ++ branchArg ++ " --pretty=format:"
     ++ String Html.dquote
          ("%H|%h|%P|%an|%ai|%D|%s" ++ String Html.dquote " --date-order"))%string.

Section methods.
(** [String.prototype.trim], [new Date(d).toLocaleString()] and
    [name => path.join(os.tmpdir(), name)], which the methods apply and this
    file does not define. *)
Variable trim : string → string.
Variable toLocaleString : string → string.
Variable tmpFile : string → string.

(** [updateWebview(webview)], with [getGitLog] in the place of its call;
    [next] is what the caller does once the method has stopped at its
    [await]. When the parser throws in the callback of the command the
    promise stays pending and the page is not replaced. *)
Definition updateWebview (p : provider) (w : webview) (next : proc) : proc :=
  match workspaceFolders p with
  | None => Later (SetHtml w [] Return) next
  | Some cwd =>
      Exec (gitCommand p) cwd None
           (λ r,
              match error r with
              | Some message =>
                  ShowErrorMessage ("Git error: " ++ message)%string
                                   (SetHtml w [] Return)
              | None =>
                  match GitLog.parseLog trim toLocaleString (stdout r) with
                  | Some commits => SetHtml w commits Return
                  | None => Return
                  end
              end)
           next
  end.

(** [refresh()] as the last statement of a callback. *)
Definition refresh (p : provider) : proc :=
  let panelUpdate :=
    if panel p then updateWebview p Panel Return else Return in
  if view p then updateWebview p View panelUpdate else panelUpdate.

(** [squashCommits(hashes, parentHash)], called and not awaited by the
    message handler, which does nothing after it. *)
Definition squashCommits (p : provider) (hashes : list string)
  (parentHash : option string) : proc :=
  let refused :=
    ShowErrorMessage "Cannot squash: oldest selected commit has no parent."
                     Return in
  match parentHash with
  | None => refused
  | Some parent =>
      if decide (parent = "") then refused
      else
        match workspaceFolders p with
        | None => Return
        | Some cwd =>
            ShowInputBox
              ("Squash " ++ pretty (length hashes) ++ " commits into one")%string
              "New commit message"
              (λ v, if decide (v = "" ∨ trim v = "")
                    then Some "Message cannot be empty"%string else None)
              (λ answer,
                 match answer with
                 | None => Return
                 | Some newMessage =>
                     if decide (newMessage = "") then Return
                     else
                       Exec "git rev-parse HEAD" cwd None
                         (λ r,
                            let headHash :=
                              match error r with
                              | Some _ => ""
                              | None => trim (stdout r)
                              end in
                            if decide (hashes !! 0 = Some headHash) then
                              let escaped :=
                                Html.replaceAll
                                  Html.dquote
                                  (String "\" (String Html.dquote ""))
                                  newMessage in
                              Exec ("git reset --soft " ++ parent)%string cwd
                                None
                                (λ r1,
                                   match error r1 with
                                   | Some message =>
                                       ShowErrorMessage
                                         ("Failed to squash: " ++ message)%string
                                         Return
                                   | None =>
                                       Exec ("git commit -m "
                                               ++ String Html.dquote escaped
                                               ++ String Html.dquote "")%string
                                         cwd None
                                         (λ r2,
                                            match error r2 with
                                            | Some message =>
                                                ShowErrorMessage
                                                  ("Failed to commit squash: "
                                                     ++ message)%string
                                                  Return
                                            | None =>
                                                ShowInformationMessage
                                                  ("Squashed "
                                                     ++ pretty (length hashes)
                                                     ++ " commits successfully")%string
                                                  (refresh p)
                                            end)
                                         Return
                                   end)
                                Return
                            else
                              let squashableHashes := allButLast hashes in
                              let seqEditorPath :=
                                tmpFile "git-plus-seq-editor.js" in
                              let msgEditorPath :=
                                tmpFile "git-plus-msg-editor.js" in
                              WriteFileSync seqEditorPath
                                (SeqEditorScript squashableHashes)
                                (WriteFileSync msgEditorPath
                                   (MsgEditorScript
                                      (newMessage ++ String "010" "")%string)
                                   (Exec ("git rebase -i " ++ parent)%string cwd
                                      (Some
                                         (("node " ++ String Html.dquote
                                             (seqEditorPath
                                                ++ String Html.dquote ""))%string,
                                          ("node " ++ String Html.dquote
                                             (msgEditorPath
                                                ++ String Html.dquote ""))%string))
                                      (λ r1,
                                         UnlinkSync seqEditorPath
                                           (UnlinkSync msgEditorPath
                                              match error r1 with
                                              | Some message =>
                                                  Exec "git rebase --abort" cwd
                                                    None (λ _, Return)
                                                    (ShowErrorMessage
                                                       ("Failed to squash: "
                                                          ++ message
                                                          ++ String "010" (stderr r1))%string
                                                       Return)
                                              | None =>
                                                  ShowInformationMessage
                                                    ("Squashed "
                                                       ++ pretty (length hashes)
                                                       ++ " commits successfully")%string
                                                    (refresh p)
                                              end))
                                      Return)))
                         Return
                 end)
        end
  end.

(** [cherryPickRange(hashes)] *)
Definition cherryPickRange (p : provider) (hashes : list string) : proc :=
  match workspaceFolders p with
  | None => Return
  | Some cwd =>
      let ordered := GitLog.join " " (reverse hashes) in
      Exec ("git cherry-pick " ++ ordered)%string cwd None
           (λ r,
              match error r with
              | Some message =>
                  ShowErrorMessage
                    ("Failed to cherry-pick: " ++ message
                       ++ String "010" (stderr r))%string
                    Return
              | None =>
                  ShowInformationMessage
                    ("Cherry-picked " ++ pretty (length hashes)
                       ++ " commits successfully")%string
                    (refresh p)
              end)
           Return
  end.

(** The two cases of the [switch] of [onDidReceiveMessage] that the items of
    the range menu reach; [None] for any other command, whose cases this
    file does not define. *)
Definition onRangeMessage (p : provider) (m : Selection.rangeMessage)
  : option proc :=
  if decide (Selection.command m = "squashCommits")
  then Some (squashCommits p (Selection.hashes m) (Selection.parentHash m))
  else if decide (Selection.command m = "cherryPickRange")
  then Some (cherryPickRange p (Selection.hashes m))
  else None.
End methods.

End Extension.

(** ** Marker geometry (GraphRenderer.drawGraph, GraphCanvas) *)

Module Marker.

Definition COMMIT_RADIUS : nat := 5.

(** [Math.round(lane * LANE_WIDTH + 10)], the centre of the marker; the
    argument is an integer. *)
Definition dotX (lane : nat) : nat := lane * Canvas.LANE_WIDTH + 10.

(** The square [clearRect] wipes under the head ring: from
    [dotX - COMMIT_RADIUS - 1], [(COMMIT_RADIUS + 1) * 2] wide. *)
Definition clearedFrom (lane : nat) : Z :=
  (Z.of_nat (dotX lane) - Z.of_nat COMMIT_RADIUS - 1)%Z.

Definition clearedWidth : nat := (COMMIT_RADIUS + 1) * 2.

End Marker.

(** The number of merge edges of a list: parent entries beyond the first. *)
Definition extraParentCount (commits : list GitCommit) : nat :=
  sum_list_with (λ c, length (parents c) - 1) commits.

(** ** The end-to-end scenario of the specification *)

Definition scenario : list GitCommit :=
  [ commitOf "C1" ["C2"]; commitOf "C2" ["C3"; "C4"]; commitOf "C3" ["C5"];
    commitOf "C4" ["C5"]; commitOf "C5" [] ].

Definition scenarioLanes : gmap string nat :=
  <["C1" := 0]> (<["C2" := 0]> (<["C3" := 0]> (<["C4" := 1]> {["C5" := 0]}))).

(** A range whose oldest commit is the root of the history. *)
Definition rootRange : list GitCommit :=
  [ commitOf "A" ["B"]; commitOf "B" [] ].

(** * Properties *)

Arguments Lanes.reserveExtra : simpl never.
Arguments Lanes.processCommit : simpl never.

(** ** The loop combinator *)

Lemma forEach_app {S A : Type} (body : S → A → option S) st (xs ys : list A) :
  forEach body st (xs ++ ys) = forEach body st xs ≫= λ st', forEach body st' ys.
Proof.
  revert st. induction xs as [|x xs IH]; intros st; simpl; [done|].
  destruct (body st x) as [st'|]; simpl; [apply IH | done].
Qed.

Lemma forEach_mono {S A : Type} (body body' : S → A → option S) s0
  (xs : list A) s1 :
  (∀ s x s', body s x = Some s' → body' s x = Some s') →
  forEach body s0 xs = Some s1 → forEach body' s0 xs = Some s1.
Proof.
  intros Hbody. revert s0.
  induction xs as [|x xs IH]; intros s0; simpl; [done|].
  destruct (body s0 x) as [s2|] eqn:H2; [|done]. simpl.
  rewrite (Hbody _ _ _ H2). simpl. apply IH.
Qed.

(** ** The free-lane scan *)

Section scan.
Import Lanes.
Implicit Types (usedLanes : gset nat) (reserved : gmap string nat).

(** What the scan answers when it answers. *)
Lemma scanFree_Some fuel usedLanes n k :
  scanFree fuel usedLanes n = Some k →
  n ≤ k ∧ (k ∉ usedLanes) ∧ (∀ m, n ≤ m → m < k → m ∈ usedLanes) ∧
  k - n < fuel.
Proof.
  revert n. induction fuel as [|fuel IH]; intros n; simpl; [done|].
  case_decide as Hn.
  - intros (? & ? & Hbelow & ?)%IH. split_and!; [lia | done | | lia].
    intros m ? ?. destruct (decide (m = n)) as [->|]; [done|].
    apply Hbelow; lia.
  - intros [= <-]. split_and!; [done | done | | lia]. intros m ? ?. lia.
Qed.

(** More fuel does not change an answer. *)
Lemma scanFree_mono fuel fuel' usedLanes n k :
  scanFree fuel usedLanes n = Some k → fuel ≤ fuel' →
  scanFree fuel' usedLanes n = Some k.
Proof.
  revert fuel' n. induction fuel as [|fuel IH]; intros fuel' n; simpl; [done|].
  intros Hk Hle. destruct fuel' as [|fuel']; [lia|]. simpl.
  case_decide; [|done]. apply IH; [done | lia].
Qed.

(** The scan from [n] ends within one more test than there are used lanes
    at or above [n]. *)
Lemma scanFree_enough fuel usedLanes n :
  size (filter (λ x, n ≤ x) usedLanes) < fuel →
  is_Some (scanFree fuel usedLanes n).
Proof.
  revert n. induction fuel as [|fuel IH]; intros n Hsize; simpl; [lia|].
  case_decide as Hn; [|by eexists].
  apply IH.
  assert (filter (λ x, S n ≤ x) usedLanes ⊂ filter (λ x, n ≤ x) usedLanes)
    as Hsub%subset_size; [|lia].
  split.
  - intros x. rewrite !elem_of_filter. intros [? ?]. split; [lia | done].
  - intros Hall. specialize (Hall n). rewrite !elem_of_filter in Hall.
    destruct Hall as [? _]; [done | lia].
Qed.

Lemma size_below usedLanes k :
  (∀ m, m < k → m ∈ usedLanes) → k ≤ size usedLanes.
Proof.
  intros Hbelow.
  rewrite <-(size_set_seq (C:=gset nat) 0 k).
  apply subseteq_size. intros m. rewrite elem_of_set_seq. intros [_ ?].
  apply Hbelow. lia.
Qed.

Lemma size_usedLanesOf reserved : size (usedLanesOf reserved) ≤ size reserved.
Proof.
  unfold usedLanesOf.
  induction reserved as [|h l reserved Hh IH] using map_ind.
  - rewrite map_img_empty_L, size_empty. lia.
  - rewrite map_img_insert_notin_L, map_size_insert_None by done.
    rewrite size_union_alt, size_singleton.
    assert (size (map_img reserved ∖ {[l]} : gset nat)
            ≤ size (map_img reserved : gset nat)); [|lia].
    apply subseteq_size. intros x. rewrite elem_of_difference. tauto.
Qed.

(** The scan of the reservation map, from lane 0. *)
Lemma scanFree_reserved fuel reserved :
  size reserved < fuel →
  ∃ newLane,
    scanFree fuel (usedLanesOf reserved) 0 = Some newLane ∧
    newLane ≤ size reserved ∧
    (∀ h, reserved !! h ≠ Some newLane) ∧
    (∀ m, m < newLane → ∃ h, reserved !! h = Some m).
Proof.
  intros Hfuel. pose proof (size_usedLanesOf reserved) as Hsz.
  destruct (scanFree_enough fuel (usedLanesOf reserved) 0) as [k Hk].
  { eapply Nat.le_lt_trans; [|apply Hfuel]. etrans; [|apply Hsz].
    apply subseteq_size. intros x. rewrite elem_of_filter. tauto. }
  exists k. split; [done|].
  apply scanFree_Some in Hk as (_ & Hfree & Hbelow & _).
  split; [|split].
  - etrans; [apply size_below|done]. intros m ?. apply Hbelow; lia.
  - intros h Hh. apply Hfree. by eapply elem_of_map_img_2.
  - intros m ?. apply (elem_of_map_img_1 (SA:=gset nat)), Hbelow; lia.
Qed.
End scan.

(** ** The pass: fuel *)

Section pass_fuel.
Import Lanes.
Implicit Types (reserved : gmap string nat) (st : state).

Lemma reserveExtra_enough fuel reserved next parent :
  size reserved < fuel →
  ∃ reserved' next',
    reserveExtra fuel (reserved, next) parent = Some (reserved', next') ∧
    size reserved' ≤ S (size reserved).
Proof.
  intros Hfuel. unfold reserveExtra.
  destruct (reserved !! parent) as [l|] eqn:Hp.
  - eexists _, _. split; [done | lia].
  - destruct (scanFree_reserved fuel reserved Hfuel) as (k & -> & _). simpl.
    eexists _, _. split; [done|]. by rewrite map_size_insert_None.
Qed.

Lemma reserveExtras_enough fuel reserved next others :
  size reserved + length others ≤ fuel →
  ∃ reserved' next',
    forEach (reserveExtra fuel) (reserved, next) others
      = Some (reserved', next') ∧
    size reserved' ≤ size reserved + length others.
Proof.
  revert reserved next.
  induction others as [|p others IH]; intros reserved next Hfuel; simpl in *.
  - eexists _, _. split; [done | lia].
  - destruct (reserveExtra_enough fuel reserved next p) as (r1 & n1 & -> & ?);
      [lia|]. simpl.
    destruct (IH r1 n1) as (r2 & n2 & -> & ?); [lia|].
    eexists _, _. split; [done | lia].
Qed.

Lemma size_reserveFirst reserved firstParent lane :
  size (reserveFirst reserved firstParent lane) ≤ S (size reserved).
Proof.
  unfold reserveFirst. destruct (reserved !! firstParent) eqn:?; [lia|].
  by rewrite map_size_insert_None.
Qed.

Lemma size_claimLane st h lane reserved next :
  claimLane st h = (lane, reserved, next) →
  size reserved ≤ size (reservedLanes st).
Proof.
  unfold claimLane. destruct (reservedLanes st !! h) eqn:Hh; intros [= <- <- <-].
  - rewrite map_size_delete, Hh. lia.
  - done.
Qed.

Lemma processCommit_enough fuel st commit :
  size (reservedLanes st) + length (parents commit) ≤ fuel →
  ∃ st', processCommit fuel st commit = Some st' ∧
         size (reservedLanes st')
           ≤ size (reservedLanes st) + length (parents commit).
Proof.
  intros Hfuel. unfold processCommit.
  destruct (claimLane st (hash commit)) as [[lane reserved] next] eqn:Hclaim.
  apply size_claimLane in Hclaim.
  destruct (parents commit) as [|firstParent others]; simpl in *.
  - eexists. split; [done|]. simpl. lia.
  - pose proof (size_reserveFirst reserved firstParent lane).
    destruct (reserveExtras_enough fuel
                (reserveFirst reserved firstParent lane) next others)
      as (r & n & -> & ?); [lia|]. simpl.
    eexists. split; [done|]. simpl. lia.
Qed.

Lemma pass_enough fuel st commits :
  size (reservedLanes st) + parentCount commits ≤ fuel →
  ∃ st', pass fuel st commits = Some st' ∧
         size (reservedLanes st')
           ≤ size (reservedLanes st) + parentCount commits.
Proof.
  unfold pass, parentCount. revert st.
  induction commits as [|c commits IH]; intros st Hfuel; simpl in *.
  - eexists. split; [done | lia].
  - destruct (processCommit_enough fuel st c) as (st1 & -> & ?); [lia|]. simpl.
    destruct (IH st1) as (st2 & -> & ?); [lia|].
    eexists. split; [done | lia].
Qed.

Lemma parentCount_app xs ys :
  parentCount (xs ++ ys) = parentCount xs + parentCount ys.
Proof. apply sum_list_with_app. Qed.

(** More fuel does not change a result. *)
Lemma reserveExtra_mono fuel fuel' s p s' :
  reserveExtra fuel s p = Some s' → fuel ≤ fuel' →
  reserveExtra fuel' s p = Some s'.
Proof.
  destruct s as [reserved next]. unfold reserveExtra.
  destruct (reserved !! p); [done|].
  destruct (scanFree fuel _ 0) as [k|] eqn:Hk; [|done]. simpl.
  intros <- Hle. by rewrite (scanFree_mono _ _ _ _ _ Hk Hle).
Qed.

Lemma processCommit_mono fuel fuel' st commit st' :
  processCommit fuel st commit = Some st' → fuel ≤ fuel' →
  processCommit fuel' st commit = Some st'.
Proof.
  unfold processCommit. intros Hst Hle.
  destruct (claimLane st (hash commit)) as [[lane reserved] next].
  destruct (parents commit) as [|firstParent others]; [done|].
  destruct (forEach (reserveExtra fuel) _ others) as [[r n]|] eqn:Hloop;
    [|done].
  erewrite forEach_mono; [done | | done].
  intros. by eapply reserveExtra_mono.
Qed.

Lemma pass_mono fuel fuel' st commits st' :
  pass fuel st commits = Some st' → fuel ≤ fuel' →
  pass fuel' st commits = Some st'.
Proof.
  intros Hst Hle. eapply forEach_mono; [|done].
  intros. by eapply processCommit_mono.
Qed.

Lemma calculateLanes_mono fuel fuel' commits lanes :
  calculateLanes fuel commits = Some lanes → fuel ≤ fuel' →
  calculateLanes fuel' commits = Some lanes.
Proof.
  unfold calculateLanes.
  destruct (pass fuel init commits) as [st|] eqn:Hst; [|done].
  intros [= <-] Hle. by rewrite (pass_mono _ _ _ _ _ Hst Hle).
Qed.
(** The pass from [init] returns once each scan may run as many loop tests
    as the list has parent entries. *)
Lemma calculateLanes_enough fuel commits :
  parentCount commits ≤ fuel →
  ∃ lanes, calculateLanes fuel commits = Some lanes.
Proof.
  intros Hfuel.
  destruct (pass_enough fuel init commits) as (st & Hst & _).
  { simpl. by rewrite map_size_empty. }
  exists (commitLanes st). unfold calculateLanes. by rewrite Hst.
Qed.

End pass_fuel.

(** ** The pass: invariant *)

Section invariant_steps.
Import Lanes.
Implicit Types (reserved : gmap string nat) (st : state).

Lemma Inv_init : Inv init.
Proof. split; [split|]; simpl; intros *; by rewrite lookup_empty. Qed.

Lemma reserveExtra_ok fuel reserved next parent reserved' next' :
  reservedOk reserved next →
  reserveExtra fuel (reserved, next) parent = Some (reserved', next') →
  reservedOk reserved' next' ∧ next ≤ next'.
Proof.
  intros [Hinj Hlt]. unfold reserveExtra.
  destruct (reserved !! parent) as [l|] eqn:Hp.
  { intros [= <- <-]. by split. }
  destruct (scanFree fuel _ 0) as [k|] eqn:Hk; [|done]. simpl.
  intros [= <- <-]. apply scanFree_Some in Hk as (_ & Hfree & _).
  assert (∀ h, reserved !! h ≠ Some k) as Hk.
  { intros h Hh. apply Hfree. by eapply elem_of_map_img_2. }
  split; [split|lia].
  - intros h1 h2 l. rewrite !lookup_insert_Some.
    intros [[<- <-]|[? H1]] [[<- ?]|[? H2]]; subst; try done.
    + by destruct (Hk h2).
    + by destruct (Hk h1).
    + by eapply Hinj.
  - intros h l. rewrite lookup_insert_Some. intros [[<- <-]|[? Hl]]; [lia|].
    apply Hlt in Hl. lia.
Qed.

Lemma reserveExtras_ok fuel reserved next others reserved' next' :
  reservedOk reserved next →
  forEach (reserveExtra fuel) (reserved, next) others
    = Some (reserved', next') →
  reservedOk reserved' next' ∧ next ≤ next'.
Proof.
  revert reserved next.
  induction others as [|p others IH]; intros reserved next Hok; simpl.
  { intros [= <- <-]. by split. }
  destruct (reserveExtra fuel (reserved, next) p) as [[r1 n1]|] eqn:H1;
    [|done]. simpl.
  destruct (reserveExtra_ok _ _ _ _ _ _ Hok H1) as [Hok1 ?].
  intros [? ?]%IH; [|done]. split; [done | lia].
Qed.

Lemma reserveFirst_ok reserved next firstParent lane :
  reservedOk reserved next → lane < next →
  (∀ h, reserved !! h ≠ Some lane) →
  reservedOk (reserveFirst reserved firstParent lane) next.
Proof.
  intros [Hinj Hlt] Hlane Hfree. unfold reserveFirst.
  destruct (reserved !! firstParent) eqn:Hp; [by split|]. split.
  - intros h1 h2 l. rewrite !lookup_insert_Some.
    intros [[<- <-]|[? H1]] [[<- ?]|[? H2]]; subst; try done.
    + by destruct (Hfree h2).
    + by destruct (Hfree h1).
    + by eapply Hinj.
  - intros h l. rewrite lookup_insert_Some. intros [[<- <-]|[? Hl]]; [done|].
    by eapply Hlt.
Qed.

Lemma claimLane_ok st h lane reserved next :
  Inv st → claimLane st h = (lane, reserved, next) →
  reservedOk reserved next ∧ lane < next ∧
  (∀ h', reserved !! h' ≠ Some lane) ∧ nextLane st ≤ next.
Proof.
  intros [[Hinj Hlt] _]. unfold claimLane.
  destruct (reservedLanes st !! h) as [l|] eqn:Hh; intros [= <- <- <-].
  - split_and!; [split| | |done].
    + intros h1 h2 l'. rewrite !lookup_delete_Some.
      intros [_ ?] [_ ?]. by eapply Hinj.
    + intros h' l'. rewrite lookup_delete_Some. intros [_ ?]. by eapply Hlt.
    + by eapply Hlt.
    + intros h'. rewrite lookup_delete_Some. intros [Hne Hh'].
      apply Hne. by eapply Hinj.
  - split_and!; [split| | |]; try lia.
    + done.
    + intros h' l' Hl. apply Hlt in Hl. lia.
    + intros h' Hl. apply Hlt in Hl. lia.
Qed.

Lemma processCommit_ok fuel st commit st' :
  Inv st → processCommit fuel st commit = Some st' →
  Inv st' ∧ nextLane st ≤ nextLane st'.
Proof.
  intros HInv. unfold processCommit.
  destruct (claimLane st (hash commit)) as [[lane reserved] next] eqn:Hclaim.
  destruct (claimLane_ok _ _ _ _ _ HInv Hclaim) as (Hok & Hlane & Hfree & Hnext).
  destruct HInv as [_ Hassigned].
  assert (∀ n, next ≤ n → ∀ h l,
            <[hash commit := lane]> (commitLanes st) !! h = Some l → l < n)
    as Hlanes.
  { intros n ? h l. rewrite lookup_insert_Some. intros [[_ <-]|[_ Hl]]; [lia|].
    apply Hassigned in Hl. lia. }
  destruct (parents commit) as [|firstParent others].
  { intros [= <-]. split; [split|]; simpl; eauto. }
  destruct (forEach _ _ others) as [[r n]|] eqn:Hloop; [|done]. simpl.
  intros [= <-].
  apply reserveExtras_ok in Hloop as [? ?]; [|by apply reserveFirst_ok].
  split; [split|]; simpl; [done | eauto | lia].
Qed.

Lemma pass_ok fuel st commits st' :
  Inv st → pass fuel st commits = Some st' → Inv st'.
Proof.
  unfold pass. revert st.
  induction commits as [|c commits IH]; intros st HInv; simpl.
  { by intros [= <-]. }
  destruct (processCommit fuel st c) as [st1|] eqn:H1; [|done]. simpl.
  apply IH. by eapply processCommit_ok.
Qed.
(** A reservation is never overwritten, and is removed only when the commit
    it is for is reached. *)
Lemma reserveExtra_keeps fuel reserved next parent reserved' next' h l :
  reserveExtra fuel (reserved, next) parent = Some (reserved', next') →
  reserved !! h = Some l → reserved' !! h = Some l.
Proof.
  unfold reserveExtra. destruct (reserved !! parent) as [l'|] eqn:Hp.
  { by intros [= <- <-]. }
  destruct (scanFree fuel _ 0) as [k|]; [|done]. simpl. intros [= <- <-] Hl.
  rewrite lookup_insert_ne; [done | congruence].
Qed.

Lemma reserveExtras_keeps fuel reserved next others reserved' next' h l :
  forEach (reserveExtra fuel) (reserved, next) others
    = Some (reserved', next') →
  reserved !! h = Some l → reserved' !! h = Some l.
Proof.
  revert reserved next. induction others as [|p others IH];
    intros reserved next; simpl.
  { by intros [= <- <-]. }
  destruct (reserveExtra fuel (reserved, next) p) as [[r1 n1]|] eqn:H1;
    [|done]. simpl.
  intros Hrest Hl. eapply IH; [done|]. by eapply reserveExtra_keeps.
Qed.

(** The loop over the additional parents never lowers [nextLane]. *)
Lemma reserveExtras_next_le fuel reserved next others reserved' next' :
  forEach (reserveExtra fuel) (reserved, next) others
    = Some (reserved', next') →
  next ≤ next'.
Proof.
  revert reserved next. induction others as [|p others IH];
    intros reserved next; simpl.
  { by intros [= <- <-]. }
  destruct (reserveExtra fuel (reserved, next) p) as [[r1 n1]|] eqn:H1;
    [|done]. simpl.
  intros Hrest%IH. revert H1. unfold reserveExtra.
  destruct (reserved !! p); [intros [= <- <-]; lia|].
  destruct (scanFree fuel _ 0) as [k|]; [|done]. simpl.
  intros [= <- <-]. lia.
Qed.

End invariant_steps.

(** ** The Lane Allocator: stated properties *)

Section allocator.
Import Lanes.
Implicit Types (reserved : gmap string nat) (st : state).

(** C7. The allocator ends on every commit list, whatever its order and its
    parent references: with as many loop tests per scan as the list has parent
    entries the pass returns a lane map. Each scan is bounded by the pending
    reservations: on any reservation map it finds its free lane within
    [|reservedLanes| + 1] loop tests, and that lane is at most
    [|reservedLanes|]. *)
Theorem allocator_terminates (commits : list GitCommit) (fuel : nat) :
  parentCount commits ≤ fuel →
  (∃ lanes, calculateLanes fuel commits = Some lanes) ∧
  (∀ reserved, ∃ newLane,
     scanFree (S (size reserved)) (usedLanesOf reserved) 0 = Some newLane ∧
     newLane ≤ size reserved).
Proof.
  intros Hfuel. split; [by apply calculateLanes_enough|].
  intros reserved.
  destruct (scanFree_reserved (S (size reserved)) reserved)
    as (k & ? & ? & _); [lia|]. by exists k.
Qed.

Lemma allocator_terminates_witness :
  (∃ lanes,
     calculateLanes 2 [commitOf "A" ["A"; "B"]; commitOf "B" []; commitOf "A" []]
       = Some lanes) ∧
  (∀ reserved, ∃ newLane,
     scanFree (S (size reserved)) (usedLanesOf reserved) 0 = Some newLane ∧
     newLane ≤ size reserved).
Proof.
  apply (allocator_terminates
           [commitOf "A" ["A"; "B"]; commitOf "B" []; commitOf "A" []] 2).
  simpl. lia.
Defined.

(** C9. After each commit of the pass, that is on every prefix of the list,
    the pending reservations are injective, and every reserved lane and every
    assigned lane is below [nextLane]. *)
Theorem pass_invariant (commits : list GitCommit) (fuel n : nat) :
  parentCount commits ≤ fuel →
  ∃ st, pass fuel init (take n commits) = Some st ∧
    (∀ h1 h2 l, reservedLanes st !! h1 = Some l →
                reservedLanes st !! h2 = Some l → h1 = h2) ∧
    (∀ h l, reservedLanes st !! h = Some l → l < nextLane st) ∧
    (∀ h l, commitLanes st !! h = Some l → l < nextLane st).
Proof.
  intros Hfuel.
  destruct (pass_enough fuel init (take n commits)) as (st & Hst & _).
  { simpl. rewrite map_size_empty. simpl.
    rewrite <-(take_drop n commits), parentCount_app in Hfuel. lia. }
  exists st. split; [done|].
  destruct (pass_ok _ _ _ _ Inv_init Hst) as [[? ?] ?]. done.
Qed.

Lemma pass_invariant_witness :
  ∃ st, pass 5 init (take 3 scenario) = Some st ∧
    (∀ h1 h2 l, reservedLanes st !! h1 = Some l →
                reservedLanes st !! h2 = Some l → h1 = h2) ∧
    (∀ h l, reservedLanes st !! h = Some l → l < nextLane st) ∧
    (∀ h l, commitLanes st !! h = Some l → l < nextLane st).
Proof. apply (pass_invariant scenario 5 3). simpl. lia. Defined.

(** C3. On the end-to-end scenario the allocator returns exactly
    [{C1:0, C2:0, C3:0, C4:1, C5:0}]. The one scan of this run tests lanes 0
    and 1, so two loop tests are all it needs. *)
Theorem scenario_lanes (fuel : nat) :
  2 ≤ fuel → calculateLanes fuel scenario = Some scenarioLanes.
Proof.
  intros Hfuel. apply (calculateLanes_mono 2); [|done].
  vm_compute. reflexivity.
Qed.

(** One loop test is not enough for the scan that places C4. *)
Example scenario_out_of_fuel : calculateLanes 1 scenario = None.
Proof. by vm_compute. Qed.

Lemma scenario_lanes_witness :
  calculateLanes 5 scenario = Some scenarioLanes.
Proof. apply (scenario_lanes 5). lia. Defined.

Lemma processCommit_commitLanes fuel st commit st' :
  processCommit fuel st commit = Some st' →
  commitLanes st'
    = <[hash commit := (claimLane st (hash commit)).1.1]> (commitLanes st).
Proof.
  unfold processCommit.
  destruct (claimLane st (hash commit)) as [[lane reserved] next].
  destruct (parents commit) as [|firstParent others]; [by intros [= <-]|].
  destruct (forEach _ _ others) as [[r n]|]; [|done]. by intros [= <-].
Qed.

Lemma pass_commitLanes_other fuel st commits st' h :
  pass fuel st commits = Some st' → h ∉ hash <$> commits →
  commitLanes st' !! h = commitLanes st !! h.
Proof.
  unfold pass. revert st.
  induction commits as [|c commits IH]; intros st; simpl.
  { by intros [= <-]. }
  destruct (processCommit fuel st c) as [st1|] eqn:H1; [|done]. simpl.
  intros Hst' [Hc Hrest]%not_elem_of_cons.
  rewrite (IH _ Hst' Hrest), (processCommit_commitLanes _ _ _ _ H1).
  by rewrite lookup_insert_ne.
Qed.

(** C10. The first commit of a list takes lane 0 whatever its parents and
    refs: the first iteration leaves [commitLanes] as [{hash: 0}], and the
    returned map gives its hash lane 0, the hash being that of no later
    commit (a later [commitLanes.set] of the same key would replace the
    entry). *)
Theorem first_commit_lane_zero (c : GitCommit) (rest : list GitCommit)
  (fuel : nat) :
  parentCount (c :: rest) ≤ fuel →
  ∃ st1 lanes,
    processCommit fuel init c = Some st1 ∧
    commitLanes st1 = {[hash c := 0]} ∧
    calculateLanes fuel (c :: rest) = Some lanes ∧
    (hash c ∉ hash <$> rest → lanes !! hash c = Some 0).
Proof.
  intros Hfuel.
  destruct (pass_enough fuel init (c :: rest)) as (st & Hst & _).
  { simpl. by rewrite map_size_empty. }
  unfold pass in Hst. simpl in Hst.
  destruct (processCommit fuel init c) as [st1|] eqn:H1; [|done].
  simpl in Hst. exists st1, (commitLanes st).
  pose proof (processCommit_commitLanes _ _ _ _ H1) as Hlanes.
  split_and!; [done | done | |].
  - unfold calculateLanes, pass. simpl. rewrite H1. simpl. by rewrite Hst.
  - intros Hfresh.
    rewrite (pass_commitLanes_other _ _ _ _ _ Hst Hfresh), Hlanes.
    apply lookup_insert_eq.
Qed.

Lemma first_commit_lane_zero_witness :
  ∃ st1 lanes,
    processCommit 3 init (commitOf "M" ["P"; "Q"; "R"]) = Some st1 ∧
    commitLanes st1 = {["M" := 0]} ∧
    calculateLanes 3 [commitOf "M" ["P"; "Q"; "R"]; commitOf "P" []]
      = Some lanes ∧
    ("M" ∉ hash <$> [commitOf "P" []] → lanes !! "M" = Some 0).
Proof.
  apply (first_commit_lane_zero (commitOf "M" ["P"; "Q"; "R"])
           [commitOf "P" []] 3).
  simpl. lia.
Defined.

Lemma chain_pass fuel commits st :
  isChain commits →
  match commits with
  | [] => True
  | c :: _ => claimLane st (hash c) = (0, ∅, 1)
  end →
  ∃ st', pass fuel st commits = Some st' ∧
         commitLanes st'
           = foldl (λ m c, <[hash c := 0]> m) (commitLanes st) commits.
Proof.
  unfold pass. revert st.
  induction commits as [|c commits IH]; intros st Hchain Hclaim.
  { by eexists. }
  cbn [forEach]. unfold processCommit. rewrite Hclaim.
  destruct commits as [|d commits].
  - simpl in Hchain. rewrite Hchain. simpl. by eexists.
  - destruct Hchain as [-> Hchain]. cbn [forEach mbind option_bind].
    apply IH; [done|]. unfold claimLane, reserveFirst. simpl.
    rewrite lookup_empty, lookup_insert_eq. by rewrite delete_insert_eq, delete_empty.
Qed.

Lemma foldl_insert_zero (commits : list GitCommit) (m : gmap string nat) :
  (∀ h l, m !! h = Some l → l = 0) →
  let m' := foldl (λ m c, <[hash c := 0]> m) m commits in
  (∀ c, c ∈ commits → m' !! hash c = Some 0) ∧
  (∀ h, is_Some (m !! h) → is_Some (m' !! h)) ∧
  (∀ h l, m' !! h = Some l → l = 0).
Proof.
  revert m. induction commits as [|c commits IH]; intros m Hzero; simpl.
  { split_and!; [by intros ? ?%elem_of_nil | done | done]. }
  destruct (IH (<[hash c := 0]> m)) as (Hin & Hdom & Hall).
  { intros h l. rewrite lookup_insert_Some. intros [[_ <-]|[_ ?]]; eauto. }
  split_and!; [| |done].
  - intros c' [->|?]%elem_of_cons; [|by apply Hin].
    destruct (Hdom (hash c)) as [l Hl]; [by rewrite lookup_insert_eq|].
    by rewrite Hl, (Hall _ _ Hl).
  - intros h [l Hl]. apply Hdom.
    destruct (decide (hash c = h)) as [->|];
      [by rewrite lookup_insert_eq | by rewrite lookup_insert_ne, Hl].
Qed.

(** C5. On a single unbroken parent chain the allocator returns a map that
    gives lane 0 to every commit of the list, and holds no other lane. No
    scan runs, so this holds for every [fuel]. *)
Theorem chain_one_lane (commits : list GitCommit) (fuel : nat) :
  isChain commits →
  ∃ lanes, calculateLanes fuel commits = Some lanes ∧
    (∀ c, c ∈ commits → lanes !! hash c = Some 0) ∧
    (∀ h l, lanes !! h = Some l → l = 0).
Proof.
  intros Hchain.
  destruct (chain_pass fuel commits init Hchain) as (st & Hst & Hlanes).
  { by destruct commits. }
  exists (commitLanes st). unfold calculateLanes. rewrite Hst.
  split; [done|]. rewrite Hlanes.
  destruct (foldl_insert_zero commits (commitLanes init)) as (? & _ & ?);
    [|done].
  intros h l. simpl. by rewrite lookup_empty.
Qed.

Lemma chain_one_lane_witness :
  ∃ lanes,
    calculateLanes 0 [commitOf "a" ["b"]; commitOf "b" ["c"]; commitOf "c" []]
      = Some lanes ∧
    (∀ c, c ∈ [commitOf "a" ["b"]; commitOf "b" ["c"]; commitOf "c" []] →
          lanes !! hash c = Some 0) ∧
    (∀ h l, lanes !! h = Some l → l = 0).
Proof.
  apply (chain_one_lane
           [commitOf "a" ["b"]; commitOf "b" ["c"]; commitOf "c" []] 0).
  simpl. split; [reflexivity|]. split; reflexivity.
Defined.

(** C4. An additional parent without a reservation is reserved the smallest
    lane that no pending reservation holds, and [nextLane] is raised above it.
    So a commit with two distinct parents, neither reserved before, adds to
    the reservations left by its own claim the first parent on the commit's
    lane and the second parent on one new lane, which is not the first
    parent's lane.  And the rule is applied to every additional parent of a
    commit, whatever their number: the parent at position [j] of the
    additional parents is handled on the reservations [rj] left by the first
    parent and by the [j] additional parents before it; if it has none there,
    it is reserved the smallest lane that no reservation of [rj] holds and
    [nextLane] is raised above that lane, and if it has one, nothing changes;
    the loop then goes on with the parents after it, and at the end of the
    commit's iteration the parent still has that reservation and [nextLane]
    is not below the value it was raised to. *)
Theorem extra_parent_new_lane :
  (∀ fuel reserved next parent,
     reserved !! parent = None → size reserved < fuel →
     ∃ newLane,
       reserveExtra fuel (reserved, next) parent
         = Some (<[parent := newLane]> reserved, Nat.max next (newLane + 1)) ∧
       (∀ h, reserved !! h ≠ Some newLane) ∧
       (∀ m, m < newLane → ∃ h, reserved !! h = Some m) ∧
       newLane < Nat.max next (newLane + 1)) ∧
  (∀ fuel st commit p1 p2 lane reserved next,
     parents commit = [p1; p2] → p1 ≠ p2 →
     reservedLanes st !! p1 = None → reservedLanes st !! p2 = None →
     claimLane st (hash commit) = (lane, reserved, next) →
     size (reservedLanes st) + 2 ≤ fuel →
     ∃ newLane,
       processCommit fuel st commit
         = Some (mkState (<[hash commit := lane]> (commitLanes st))
                         (<[p2 := newLane]> (<[p1 := lane]> reserved))
                         (Nat.max next (newLane + 1))) ∧
       newLane ≠ lane ∧
       (∀ h, reserved !! h ≠ Some newLane)) ∧
  (∀ fuel st commit firstParent others lane reserved next j q,
     parents commit = firstParent :: others →
     claimLane st (hash commit) = (lane, reserved, next) →
     others !! j = Some q →
     size (reservedLanes st) + length (parents commit) ≤ fuel →
     ∃ st' rj nj rj' nj',
       processCommit fuel st commit = Some st' ∧
       commitLanes st' = <[hash commit := lane]> (commitLanes st) ∧
       forEach (reserveExtra fuel)
               (reserveFirst reserved firstParent lane, next) (take j others)
         = Some (rj, nj) ∧
       reserveExtra fuel (rj, nj) q = Some (rj', nj') ∧
       forEach (reserveExtra fuel) (rj', nj') (drop (S j) others)
         = Some (reservedLanes st', nextLane st') ∧
       match rj !! q with
       | Some _ => rj' = rj ∧ nj' = nj
       | None =>
           ∃ newLane,
             rj' = <[q := newLane]> rj ∧ nj' = Nat.max nj (newLane + 1) ∧
             (∀ h, rj !! h ≠ Some newLane) ∧
             (∀ m, m < newLane → ∃ h, rj !! h = Some m)
       end ∧
       is_Some (rj' !! q) ∧
       reservedLanes st' !! q = rj' !! q ∧
       nj' ≤ nextLane st').
Proof.
  assert (∀ fuel reserved next parent,
     reserved !! parent = None → size reserved < fuel →
     ∃ newLane,
       reserveExtra fuel (reserved, next) parent
         = Some (<[parent := newLane]> reserved, Nat.max next (newLane + 1)) ∧
       (∀ h, reserved !! h ≠ Some newLane) ∧
       (∀ m, m < newLane → ∃ h, reserved !! h = Some m) ∧
       newLane < Nat.max next (newLane + 1)) as Hextra.
  { intros fuel reserved next parent Hp Hfuel.
    destruct (scanFree_reserved fuel reserved Hfuel) as (k & Hk & _ & ? & ?).
    exists k. unfold reserveExtra. rewrite Hp, Hk. simpl.
    split_and!; [done | done | done | lia]. }
  split; [done|]. split.
  - intros fuel st commit p1 p2 lane reserved next Hps Hne H1 H2 Hclaim Hfuel.
    assert (reserved !! p1 = None ∧ reserved !! p2 = None) as [H1' H2'].
    { revert Hclaim. unfold claimLane.
      destruct (reservedLanes st !! hash commit); intros [= <- <- <-];
        rewrite ?lookup_delete_None; auto. }
    pose proof (size_claimLane _ _ _ _ _ Hclaim) as Hsize.
    destruct (Hextra fuel (<[p1 := lane]> reserved) next p2)
      as (k & Hk & Hfree & _).
    { by rewrite lookup_insert_ne. }
    { rewrite map_size_insert_None by done. lia. }
    exists k. unfold processCommit. rewrite Hclaim, Hps.
    unfold reserveFirst. rewrite H1'. cbn [forEach]. rewrite Hk. simpl.
    split_and!; [done | |].
    + intros ->. by destruct (Hfree p1); rewrite lookup_insert_eq.
    + intros h Hh. destruct (decide (h = p1)) as [->|]; [congruence|].
      by destruct (Hfree h); rewrite lookup_insert_ne.
  - intros fuel st commit firstParent others lane reserved next j q
      Hps Hclaim Hj Hfuel.
    pose proof (size_claimLane _ _ _ _ _ Hclaim) as Hsize.
    pose proof (size_reserveFirst reserved firstParent lane) as Hfirst.
    rewrite Hps in Hfuel. cbn [length] in Hfuel.
    destruct (reserveExtras_enough fuel
                (reserveFirst reserved firstParent lane) next others)
      as (r & n & Hloop & _); [lia|].
    pose proof Hloop as Hsplit.
    rewrite <- (take_drop_middle others j q Hj), forEach_app in Hsplit.
    destruct (forEach (reserveExtra fuel) _ (take j others))
      as [[rj nj]|] eqn:Hbefore; [|done].
    cbn [mbind option_bind forEach] in Hsplit.
    destruct (reserveExtra fuel (rj, nj) q) as [[rj' nj']|] eqn:Hq; [|done].
    cbn [mbind option_bind] in Hsplit.
    assert (match rj !! q with
            | Some _ => rj' = rj ∧ nj' = nj
            | None =>
                ∃ newLane,
                  rj' = <[q := newLane]> rj ∧ nj' = Nat.max nj (newLane + 1) ∧
                  (∀ h, rj !! h ≠ Some newLane) ∧
                  (∀ m, m < newLane → ∃ h, rj !! h = Some m)
            end) as Hrule.
    { revert Hq. unfold reserveExtra. destruct (rj !! q) as [l|] eqn:Hl.
      { by intros [= <- <-]. }
      destruct (scanFree fuel _ 0) as [k|] eqn:Hk; [|done]. simpl.
      intros [= <- <-]. exists k.
      apply scanFree_Some in Hk as (_ & Hfree & Hbelow & _).
      split_and!; [done | done | |].
      - intros h Hh. apply Hfree. unfold usedLanesOf.
        by eapply elem_of_map_img_2.
      - intros m Hm. unfold usedLanesOf in Hbelow.
        specialize (Hbelow m). rewrite elem_of_map_img in Hbelow.
        apply Hbelow; lia. }
    assert (is_Some (rj' !! q)) as [l Hl].
    { destruct (rj !! q) as [l|] eqn:Hrq.
      - destruct Hrule as [-> _]. by exists l.
      - destruct Hrule as (k & -> & _). exists k. by rewrite lookup_insert_eq. }
    exists (mkState (<[hash commit := lane]> (commitLanes st)) r n),
           rj, nj, rj', nj'.
    split_and!; try done.
    + unfold processCommit. rewrite Hclaim, Hps, Hloop. done.
    + simpl. rewrite Hl. eapply reserveExtras_keeps; [exact Hsplit | done].
    + simpl. by eapply reserveExtras_next_le.
Qed.

Lemma extra_parent_new_lane_witness :
  (∃ newLane,
     processCommit 3 (mkState {["M" := 0]} {["X" := 1]} 2)
                   (commitOf "N" ["P"; "Q"])
       = Some (mkState (<["N" := 2]> {["M" := 0]})
                       (<["Q" := newLane]> (<["P" := 2]> {["X" := 1]}))
                       (Nat.max 3 (newLane + 1))) ∧
     newLane ≠ 2 ∧
     (∀ h, ({["X" := 1]} : gmap string nat) !! h ≠ Some newLane)) ∧
  (∃ st' rj nj rj' nj',
     processCommit 5 (mkState {["M" := 0]} {["X" := 1]} 2)
                   (commitOf "N" ["P"; "Q"; "R"; "S"]) = Some st' ∧
     commitLanes st' = <["N" := 2]> {["M" := 0]} ∧
     forEach (reserveExtra 5) (reserveFirst {["X" := 1]} "P" 2, 3)
             (take 1 ["Q"; "R"; "S"]) = Some (rj, nj) ∧
     reserveExtra 5 (rj, nj) "R" = Some (rj', nj') ∧
     forEach (reserveExtra 5) (rj', nj') (drop 2 ["Q"; "R"; "S"])
       = Some (reservedLanes st', nextLane st') ∧
     match rj !! "R" with
     | Some _ => rj' = rj ∧ nj' = nj
     | None =>
         ∃ newLane,
           rj' = <["R" := newLane]> rj ∧ nj' = Nat.max nj (newLane + 1) ∧
           (∀ h, rj !! h ≠ Some newLane) ∧
           (∀ m, m < newLane → ∃ h, rj !! h = Some m)
     end ∧
     is_Some (rj' !! "R") ∧
     reservedLanes st' !! "R" = rj' !! "R" ∧
     nj' ≤ nextLane st').
Proof.
  split.
  - refine (proj1 (proj2 extra_parent_new_lane) 3
              (mkState {["M" := 0]} {["X" := 1]} 2)
              (commitOf "N" ["P"; "Q"]) "P" "Q" 2 {["X" := 1]} 3 _ _ _ _ _ _).
    + reflexivity.
    + discriminate.
    + reflexivity.
    + reflexivity.
    + reflexivity.
    + vm_compute. lia.
  - refine (proj2 (proj2 extra_parent_new_lane) 5
              (mkState {["M" := 0]} {["X" := 1]} 2)
              (commitOf "N" ["P"; "Q"; "R"; "S"]) "P" ["Q"; "R"; "S"]
              2 {["X" := 1]} 3 1 "R" _ _ _ _).
    + reflexivity.
    + reflexivity.
    + reflexivity.
    + vm_compute. lia.
Defined.

End allocator.

(** ** Selection and range validation: stated properties *)

Section selection.
Import Selection.

Lemma areCommitsConsecutive_cons commits i j rest :
  areCommitsConsecutive commits (i :: j :: rest)
  = newer ← commits !! i;
    if decide (length (parents newer) ≠ 1) then Some false
    else
      older ← commits !! j;
      if decide (hash older ∈ parents newer)
      then areCommitsConsecutive commits (j :: rest)
      else Some false.
Proof. reflexivity. Qed.

(** C1. A selection of at most one row is consecutive. Over rows of the
    list, the predicate answers, and answers true exactly when in every
    adjacent pair of the sequence the newer commit has exactly one parent and
    that parent is the older commit's hash. *)
Theorem areCommitsConsecutive_spec (commits : list GitCommit)
  (sortedIndices : list nat) :
  (length sortedIndices ≤ 1 →
   areCommitsConsecutive commits sortedIndices = Some true) ∧
  (Forall (λ i, i < length commits) sortedIndices →
   ∃ b, areCommitsConsecutive commits sortedIndices = Some b ∧
     (b = true ↔
      ∀ k i j newer older,
        sortedIndices !! k = Some i → sortedIndices !! S k = Some j →
        commits !! i = Some newer → commits !! j = Some older →
        length (parents newer) = 1 ∧ parents newer !! 0 = Some (hash older))).
Proof.
  split.
  { destruct sortedIndices as [|i [|j rest]]; simpl; [done | done | lia]. }
  induction sortedIndices as [|i rest IH]; intros Hvalid.
  { exists true. split; [done|]. split; [|done]. intros _ k. by destruct k. }
  destruct rest as [|j rest].
  { exists true. split; [done|]. split; [|done]. intros _ k ? ? ? ? _ Hj.
    by destruct k. }
  apply Forall_cons in Hvalid as [Hi Hvalid].
  pose proof Hvalid as [Hj _]%Forall_cons.
  apply lookup_lt_is_Some_2 in Hi as [newer Hnewer].
  apply lookup_lt_is_Some_2 in Hj as [older Holder].
  destruct (IH Hvalid) as (b & Hb & Hiff).
  rewrite areCommitsConsecutive_cons, Hnewer. cbn [mbind option_bind].
  rewrite Holder. cbn [mbind option_bind].
  case_decide as Hone.
  { exists false. split; [done|]. split; [done|]. intros Hall.
    destruct (Hall 0 i j newer older) as [? _]; done. }
  case_decide as Hin.
  - exists b. split; [done|]. rewrite Hiff. split.
    + intros Hall [|k] i' j' newer' older' Hi' Hj' Hn' Ho'.
      * simpl in Hi', Hj'. simplify_eq. split; [done|].
        destruct (parents _) as [|p [|??]]; simplify_eq/=.
        by apply list_elem_of_singleton in Hin as ->.
      * by eapply (Hall k).
    + intros Hall k i' j' newer' older' Hi' Hj' Hn' Ho'.
      by eapply (Hall (S k)).
  - exists false. split; [done|]. split; [done|]. intros Hall.
    destruct (Hall 0 i j newer older) as [_ Hp]; [done..|].
    destruct Hin. by eapply list_elem_of_lookup_2.
Qed.

Lemma areCommitsConsecutive_spec_witness :
  ∃ b, areCommitsConsecutive scenario [0; 1; 2] = Some b ∧
    (b = true ↔
     ∀ k i j newer older,
       [0; 1; 2] !! k = Some i → [0; 1; 2] !! S k = Some j →
       scenario !! i = Some newer → scenario !! j = Some older →
       length (parents newer) = 1 ∧ parents newer !! 0 = Some (hash older)).
Proof.
  apply (proj2 (areCommitsConsecutive_spec scenario [0; 1; 2])).
  repeat constructor; simpl; lia.
Defined.

(** The two selections of the specification's consecutiveness test. *)
Example consecutive_chain :
  areCommitsConsecutive
    [commitOf "A" ["B"]; commitOf "B" ["C"]; commitOf "C" []] [0; 1; 2]
  = Some true.
Proof. reflexivity. Qed.

Example consecutive_merge :
  areCommitsConsecutive
    [commitOf "A" ["B"]; commitOf "B" ["C"; "D"]; commitOf "C" []] [0; 1; 2]
  = Some false.
Proof. reflexivity. Qed.

Lemma Sorted_le_last (l : list nat) (m : nat) :
  Sorted Nat.le l → last l = Some m → ∀ i, i ∈ l → i ≤ m.
Proof.
  intros Hsorted%Sorted_StronglySorted; [|by intros ???; etrans].
  induction Hsorted as [|x l Hl IH Hx]; intros Hlast i Hi.
  { by apply elem_of_nil in Hi. }
  destruct l as [|y l].
  - simpl in Hlast. apply list_elem_of_singleton in Hi. by simplify_eq.
  - rewrite last_cons_cons in Hlast.
    apply elem_of_cons in Hi as [->|Hi]; [|by apply IH].
    etrans; [|by apply IH, last_Some_elem_of].
    eapply Forall_forall in Hx; [done|]. by apply last_Some_elem_of.
Qed.

(** C2, as the code has it. A range action on a non-empty selection of rows
    of the list posts the action with the hashes of the selected rows in
    ascending row order, newest first, and with the first parent of the
    oldest (highest-index) selected commit as [parentHash], which is absent
    when that commit has no parent; when that commit has exactly one parent,
    [parentHash] is that parent. *)
Theorem range_message (commits : list GitCommit) (selectedIndices : list nat)
  (action : string) :
  selectedIndices ≠ [] →
  Forall (λ i, i < length commits) selectedIndices →
  ∃ msg oldestIndex oldest,
    rangeMenuClick commits selectedIndices action = Some msg ∧
    command msg = action ∧
    Sorted Nat.le (sortIndices selectedIndices) ∧
    sortIndices selectedIndices ≡ₚ selectedIndices ∧
    Forall2 (λ i h, hash <$> commits !! i = Some h)
            (sortIndices selectedIndices) (hashes msg) ∧
    oldestIndex ∈ selectedIndices ∧
    (∀ i, i ∈ selectedIndices → i ≤ oldestIndex) ∧
    commits !! oldestIndex = Some oldest ∧
    parentHash msg = parents oldest !! 0 ∧
    (∀ p, parents oldest = [p] → parentHash msg = Some p).
Proof.
  intros Hne Hvalid. unfold rangeMenuClick.
  pose proof (merge_sort_Permutation Nat.le selectedIndices) as Hperm.
  pose proof (Sorted_merge_sort Nat.le selectedIndices) as Hsorted.
  fold (sortIndices selectedIndices) in Hperm, Hsorted.
  rewrite <-Hperm in Hvalid.
  destruct (mapM (λ i, hash <$> commits !! i) (sortIndices selectedIndices))
    as [hs|] eqn:Hhs.
  2:{ assert (is_Some (mapM (λ i, hash <$> commits !! i)
                            (sortIndices selectedIndices))) as [? ?];
        [|congruence].
      apply mapM_is_Some. eapply Forall_impl; [done|].
      intros i [c Hc]%lookup_lt_is_Some_2. simpl. rewrite Hc. by eexists. }
  destruct (last (sortIndices selectedIndices)) as [oldestIndex|] eqn:Hlast.
  2:{ apply last_None in Hlast. rewrite Hlast in Hperm.
      by apply Permutation_nil_l in Hperm. }
  pose proof (last_Some_elem_of _ _ Hlast) as Hin.
  cbn [mbind option_bind].
  destruct (commits !! oldestIndex) as [oldest|] eqn:Holdest.
  2:{ eapply Forall_forall in Hvalid; [|done].
      apply lookup_lt_is_Some_2 in Hvalid as [? ?]. congruence. }
  simpl. eexists _, oldestIndex, oldest. split_and!; try done.
  - by apply mapM_Some_1.
  - by rewrite <-Hperm.
  - intros i Hi. eapply Sorted_le_last; [done..|]. by rewrite Hperm.
  - simpl. by intros p ->.
Qed.

Lemma range_message_witness :
  ∃ msg oldestIndex oldest,
    rangeMenuClick scenario [2; 0; 1] "squashCommits" = Some msg ∧
    command msg = "squashCommits" ∧
    Sorted Nat.le (sortIndices [2; 0; 1]) ∧
    sortIndices [2; 0; 1] ≡ₚ [2; 0; 1] ∧
    Forall2 (λ i h, hash <$> scenario !! i = Some h)
            (sortIndices [2; 0; 1]) (hashes msg) ∧
    oldestIndex ∈ [2; 0; 1] ∧
    (∀ i, i ∈ [2; 0; 1] → i ≤ oldestIndex) ∧
    scenario !! oldestIndex = Some oldest ∧
    parentHash msg = parents oldest !! 0 ∧
    (∀ p, parents oldest = [p] → parentHash msg = Some p).
Proof.
  apply (range_message scenario [2; 0; 1] "squashCommits").
  - discriminate.
  - repeat constructor; simpl; lia.
Defined.

(** C2, as stated, fails on [rootRange]: rows 0 and 1 are a consecutive
    range, so squash is offered, and the oldest selected commit is the root,
    which has no parent; the message carries no base. *)
Lemma range_base_counterexample :
  areCommitsConsecutive rootRange (sortIndices [0; 1]) = Some true ∧
  rangeMenuClick rootRange [0; 1] "squashCommits"
    = Some (mkRangeMessage "squashCommits" ["A"; "B"] None) ∧
  rootRange !! 1 = Some (commitOf "B" []) ∧
  ¬ ∃ msg p,
      rangeMenuClick rootRange [0; 1] "squashCommits" = Some msg ∧
      parents (commitOf "B" []) = [p] ∧ parentHash msg = Some p.
Proof.
  split_and!; [by vm_compute..|]. by intros (msg & p & _ & ? & _).
Qed.

End selection.

(** ** Edge routing: stated properties *)

Section canvas.
Import Canvas.

Lemma findIndexFrom_absent (i : nat) (commits : list GitCommit) (h : string) :
  h ∉ hash <$> commits → findIndexFrom i commits h = (-1)%Z.
Proof.
  revert i. induction commits as [|c commits IH]; intros i; simpl; [done|].
  intros [? ?]%not_elem_of_cons. case_decide; [congruence|]. by apply IH.
Qed.

Lemma rowsBefore_take (commits : list GitCommit) (index : nat) :
  index ≤ length commits → rowsBefore commits index = Some (take index commits).
Proof.
  intros Hle. unfold rowsBefore. apply mapM_Some_2, Forall2_same_length_lookup.
  split; [by rewrite length_seq, length_take_le|].
  intros i k c [-> ?]%lookup_seq. simpl. intros Hc. rewrite <-Hc.
  symmetry. by apply lookup_take_lt.
Qed.

Lemma outgoingCurve_absent commits commitLanes index lane (q : string) :
  q ∉ hash <$> commits → outgoingCurve commits commitLanes index lane q = [].
Proof.
  intros Hq. unfold outgoingCurve, findIndex.
  rewrite findIndexFrom_absent by done. case_decide; [lia | done].
Qed.

Lemma hasOutgoing_absent commits index (commit : GitCommit) :
  (∀ q, q ∈ parents commit → q ∉ hash <$> commits) →
  hasOutgoing commits index commit = false.
Proof.
  unfold hasOutgoing. induction (parents commit) as [|q qs IH]; [done|].
  intros Hall. simpl. rewrite IH; [|intros; apply Hall; by right].
  unfold outgoingEdge, findIndex.
  rewrite findIndexFrom_absent by (apply Hall; by left).
  rewrite bool_decide_eq_false_2; [done | lia].
Qed.

(** The row of a commit none of whose parents is in the list has no lower
    half and no outgoing connector. *)
Lemma row_without_rows_below commits commitLanes headCommitHash index
  (commit : GitCommit) segs s :
  (∀ q, q ∈ parents commit → q ∉ hash <$> commits) →
  GraphCanvas commit index commits commitLanes headCommitHash = Some segs →
  s ∈ segs →
  (∀ lane, s ≠ LowerHalf lane) ∧ (∀ lane pl, s ≠ OutgoingCurve lane pl).
Proof.
  intros Hall. unfold GraphCanvas.
  destruct (rowsBefore commits index) as [before|]; [|done]. simpl.
  rewrite hasOutgoing_absent by done.
  intros [= <-]. rewrite !elem_of_app, !list_elem_of_bind.
  intros [(c & Hs & _)|[[Hs|Hs]|[(c & Hs & _)|[(q & Hs & Hq)|Hs]]]].
  - apply list_elem_of_bind in Hs as (q & Hs & _).
    unfold passthroughEdge in Hs.
    repeat case_match; try (by apply elem_of_nil in Hs).
    apply list_elem_of_singleton in Hs as ->. done.
  - destruct (hasIncoming commits index commit);
      [|by apply elem_of_nil in Hs].
    apply list_elem_of_singleton in Hs as ->. done.
  - by apply elem_of_nil in Hs.
  - unfold incomingCurve in Hs.
    repeat case_match; try (by apply elem_of_nil in Hs).
    apply list_elem_of_singleton in Hs as ->. done.
  - rewrite outgoingCurve_absent in Hs by auto. by apply elem_of_nil in Hs.
  - case_decide; apply list_elem_of_singleton in Hs as ->; done.
Qed.

(** C6. A parent hash that is the hash of no commit of the list has no row:
    [findIndex] answers -1. Drawing the row of a commit that has such a
    parent raises nothing, and for that edge no passthrough segment (in any
    row), no lower half of the own lane line and no outgoing connector is
    produced. *)
Theorem absent_parent_not_drawn (commits : list GitCommit)
  (commitLanes : gmap string nat) (headCommitHash : option string)
  (index : nat) (commit : GitCommit) (p : string) :
  commits !! index = Some commit → p ∈ parents commit →
  p ∉ hash <$> commits →
  findIndex commits p = (-1)%Z ∧
  (∃ segs,
     GraphCanvas commit index commits commitLanes headCommitHash = Some segs) ∧
  (∀ row lane, passthroughEdge commits commitLanes row lane p = []) ∧
  outgoingEdge commits index p = false ∧
  (∀ lane, outgoingCurve commits commitLanes index lane p = []) ∧
  ((∀ q, q ∈ parents commit → q ∉ hash <$> commits) →
   ∀ segs,
     GraphCanvas commit index commits commitLanes headCommitHash = Some segs →
     ∀ s, s ∈ segs →
       (∀ lane, s ≠ LowerHalf lane) ∧ (∀ lane pl, s ≠ OutgoingCurve lane pl)).
Proof.
  intros Hrow _ Habsent.
  pose proof (findIndexFrom_absent 0 commits p Habsent) as Hfind.
  fold (findIndex commits p) in Hfind.
  split_and!.
  - done.
  - unfold GraphCanvas. rewrite rowsBefore_take; [by eexists|].
    apply lookup_lt_Some in Hrow. lia.
  - intros row lane. unfold passthroughEdge. rewrite Hfind.
    case_decide; [lia | done].
  - unfold outgoingEdge. rewrite Hfind. apply bool_decide_eq_false. lia.
  - intros lane. unfold outgoingCurve. rewrite Hfind.
    case_decide; [lia | done].
  - intros Hall segs Hsegs s Hs. eapply row_without_rows_below; done.
Qed.

Lemma absent_parent_not_drawn_witness :
  findIndex (commitOf "C1" ["C9"] :: scenario) "C9" = (-1)%Z ∧
  (∃ segs,
     GraphCanvas (commitOf "C1" ["C9"]) 0 (commitOf "C1" ["C9"] :: scenario)
                 {["C1" := 0]} None = Some segs) ∧
  (∀ row lane,
     passthroughEdge (commitOf "C1" ["C9"] :: scenario) {["C1" := 0]} row lane
                     "C9" = []) ∧
  outgoingEdge (commitOf "C1" ["C9"] :: scenario) 0 "C9" = false ∧
  (∀ lane,
     outgoingCurve (commitOf "C1" ["C9"] :: scenario) {["C1" := 0]} 0 lane
                   "C9" = []) ∧
  ((∀ q, q ∈ parents (commitOf "C1" ["C9"]) →
         q ∉ hash <$> commitOf "C1" ["C9"] :: scenario) →
   ∀ segs,
     GraphCanvas (commitOf "C1" ["C9"]) 0 (commitOf "C1" ["C9"] :: scenario)
                 {["C1" := 0]} None = Some segs →
     ∀ s, s ∈ segs →
       (∀ lane, s ≠ LowerHalf lane) ∧ (∀ lane pl, s ≠ OutgoingCurve lane pl)).
Proof.
  refine (absent_parent_not_drawn (commitOf "C1" ["C9"] :: scenario)
            {["C1" := 0]} None 0 (commitOf "C1" ["C9"]) "C9" _ _ _).
  - reflexivity.
  - simpl. apply list_elem_of_singleton. reflexivity.
  - simpl. intros Hin. repeat (apply elem_of_cons in Hin as [Hin|Hin];
      [discriminate Hin|]). by apply elem_of_nil in Hin.
Defined.

End canvas.

(** ** Row renderer: stated properties *)

Section renderer.
Import Lanes Canvas Renderer.

Lemma foldl_max_spec (values : list nat) (v : nat) :
  let m := foldl Nat.max v values in
  (m = v ∨ m ∈ values) ∧ v ≤ m ∧ ∀ x, x ∈ values → x ≤ m.
Proof.
  revert v. induction values as [|w values IH]; intros v; simpl.
  { split_and!; [by left | done | by intros ? ?%elem_of_nil]. }
  destruct (IH (v `max` w)) as ([Hm|Hm] & Hle & Hall).
  - split_and!; [| lia |].
    + destruct (Nat.max_spec v w) as [[_ Hw]|[_ Hv]].
      * right. rewrite Hm, Hw. by left.
      * left. congruence.
    + intros x [->|?]%elem_of_cons; [lia | by apply Hall].
  - split_and!; [right; by right | lia |].
    intros x [->|?]%elem_of_cons; [lia | by apply Hall].
Qed.

Lemma mathMax_spec (values : list nat) :
  values ≠ [] →
  ∃ m, mathMax values = Some m ∧ m ∈ values ∧ ∀ x, x ∈ values → x ≤ m.
Proof.
  destruct values as [|v values]; [done|]. intros _.
  destruct (foldl_max_spec values v) as (Hm & Hle & Hall).
  eexists. split; [done|]. split.
  - destruct Hm as [Hm|?]; [|by right]. simpl. rewrite Hm. by left.
  - intros x [->|?]%elem_of_cons; [done | by apply Hall].
Qed.

(** The width computed from a lane map that is not empty. *)
Lemma canvasWidthOf_spec (commitLanes : gmap string nat) :
  commitLanes ≠ ∅ →
  ∃ maxLane,
    canvasWidthOf commitLanes = Some ((maxLane + 1) * LANE_WIDTH + 12) ∧
    (∃ h, commitLanes !! h = Some maxLane) ∧
    (∀ h l, commitLanes !! h = Some l → l ≤ maxLane).
Proof.
  intros Hne. unfold canvasWidthOf.
  destruct (mathMax_spec (map_to_list commitLanes).*2) as (m & -> & Hin & Hall).
  { intros Hnil%fmap_nil_inv. by apply map_to_list_empty_iff in Hnil. }
  exists m. split; [done|]. split.
  - apply list_elem_of_fmap in Hin as ([h l] & -> & Hin).
    exists h. by apply elem_of_map_to_list.
  - intros h l Hl. apply Hall, list_elem_of_fmap. exists (h, l).
    split; [done|]. by apply elem_of_map_to_list.
Qed.

Lemma pass_commitLanes_dom fuel st commits st' h :
  pass fuel st commits = Some st' →
  is_Some (commitLanes st !! h) → is_Some (commitLanes st' !! h).
Proof.
  unfold pass. revert st.
  induction commits as [|c commits IH]; intros st; simpl.
  { by intros [= <-]. }
  destruct (processCommit fuel st c) as [st1|] eqn:H1; [|done]. simpl.
  intros Hst' Hh. apply (IH _ Hst').
  rewrite (processCommit_commitLanes _ _ _ _ H1).
  destruct (decide (hash c = h)) as [->|];
    [by rewrite lookup_insert_eq | by rewrite lookup_insert_ne].
Qed.

(** Every commit of the list has a lane in the returned map. *)
Lemma calculateLanes_total fuel commits lanes c :
  calculateLanes fuel commits = Some lanes → c ∈ commits →
  is_Some (lanes !! hash c).
Proof.
  unfold calculateLanes.
  destruct (pass fuel init commits) as [st|] eqn:Hst; [|done].
  intros [= <-] (pre & post & ->)%list_elem_of_split.
  unfold pass in Hst. rewrite forEach_app in Hst.
  destruct (forEach _ init pre) as [st0|]; [|done]. simpl in Hst.
  destruct (processCommit fuel st0 c) as [st1|] eqn:H1; [|done].
  simpl in Hst. eapply pass_commitLanes_dom; [done|].
  rewrite (processCommit_commitLanes _ _ _ _ H1), lookup_insert_eq.
  by eexists.
Qed.

(** C8, as the code has it. For a non-empty commit list [drawGraph] computes
    one canvas width, [(maxLane + 1) * LANE_WIDTH + 12] with [maxLane] the
    greatest lane of the lane map, and gives every row's canvas that CSS width
    and that width scaled by the device pixel ratio as its backing width; there
    is one canvas per row. *)
Theorem drawGraph_uniform_width (commits : list GitCommit) (fuel : nat)
  (headCommitHash : option string) (dpr : Q) :
  commits ≠ [] → parentCount commits ≤ fuel →
  ∃ lanes maxLane surfaces,
    calculateLanes fuel commits = Some lanes ∧
    (∃ h, lanes !! h = Some maxLane) ∧
    (∀ h l, lanes !! h = Some l → l ≤ maxLane) ∧
    drawGraph fuel commits headCommitHash dpr = Some surfaces ∧
    rowIndex <$> surfaces = seq 0 (length commits) ∧
    ∀ s, s ∈ surfaces →
      styleWidth s = (maxLane + 1) * LANE_WIDTH + 12 ∧
      width s = scaled ((maxLane + 1) * LANE_WIDTH + 12) dpr.
Proof.
  intros Hne Hfuel.
  destruct (calculateLanes_enough fuel commits Hfuel) as [lanes Hlanes].
  destruct (canvasWidthOf_spec lanes) as (maxLane & Hwidth & Hmax & Hall).
  { destruct commits as [|c commits]; [done|].
    destruct (calculateLanes_total fuel (c :: commits) lanes c Hlanes)
      as [l Hl]; [by left|].
    intros ->. by rewrite lookup_empty in Hl. }
  unfold drawGraph. rewrite Hlanes. cbn [mbind option_bind].
  rewrite Hwidth. cbn [mbind option_bind].
  set (w := (maxLane + 1) * LANE_WIDTH + 12) in *.
  destruct (mapM (drawCanvas commits lanes headCommitHash w dpr)
                 (seq 0 (length commits))) as [surfaces|] eqn:Hdraw.
  2:{ assert (is_Some (mapM (drawCanvas commits lanes headCommitHash w dpr)
                            (seq 0 (length commits)))) as [? ?];
        [|congruence].
      apply mapM_is_Some, Forall_forall. intros i [_ Hi]%elem_of_seq.
      simpl in Hi. unfold drawCanvas. simpl.
      destruct (lookup_lt_is_Some_2 commits i Hi) as [c ->]. simpl.
      unfold GraphCanvas. rewrite rowsBefore_take by lia. by eexists. }
  exists lanes, maxLane, surfaces. split_and!; try done.
  - apply mapM_Some_1 in Hdraw. clear -Hdraw.
    induction Hdraw as [|i s idxs ss Hs _ IH]; [done|].
    simpl. f_equal; [|done]. unfold drawCanvas in Hs.
    destruct (commits !! i); [|done]. simpl in Hs.
    destruct (GraphCanvas _ _ _ _ _); [|done]. by simplify_eq/=.
  - intros s [k Hk]%list_elem_of_lookup_1. apply mapM_Some_1 in Hdraw.
    destruct (Forall2_lookup_r _ _ _ _ _ Hdraw Hk) as (i & _ & Hi).
    unfold drawCanvas in Hi. destruct (commits !! i); [|done]. simpl in Hi.
    destruct (GraphCanvas _ _ _ _ _); [|done]. by simplify_eq/=.
Qed.

Lemma drawGraph_uniform_width_witness :
  ∃ lanes maxLane surfaces,
    calculateLanes 5 scenario = Some lanes ∧
    (∃ h, lanes !! h = Some maxLane) ∧
    (∀ h l, lanes !! h = Some l → l ≤ maxLane) ∧
    drawGraph 5 scenario (Some "C1") 2 = Some surfaces ∧
    rowIndex <$> surfaces = seq 0 (length scenario) ∧
    ∀ s, s ∈ surfaces →
      styleWidth s = (maxLane + 1) * LANE_WIDTH + 12 ∧
      width s = scaled ((maxLane + 1) * LANE_WIDTH + 12) 2.
Proof.
  apply (drawGraph_uniform_width scenario 5 (Some "C1") 2).
  - discriminate.
  - simpl. lia.
Defined.

(** C8, as stated, fails on a one-commit list: the only lane is 0, so
    [(0 + 1) * LANE_WIDTH] is 18, and the canvas is 30 px wide. *)
Lemma canvas_width_counterexample :
  calculateLanes 0 [commitOf "A" []] = Some {["A" := 0]} ∧
  (0 + 1) * LANE_WIDTH = 18 ∧
  canvasWidthOf {["A" := 0]} = Some 30 ∧
  (∃ surfaces,
     drawGraph 0 [commitOf "A" []] None 1 = Some surfaces ∧
     styleWidth <$> surfaces = [30]).
Proof. split_and!; [by vm_compute..|]. eexists. split; by vm_compute. Qed.

End renderer.

(** ** The page script: selection state and menus *)

Section page.
Import Selection Page.

Lemma Sorted_le_seq (lo len : nat) : Sorted Nat.le (seq lo len).
Proof.
  revert lo. induction len as [|len IH]; intros lo; simpl; [constructor|].
  constructor; [apply IH|]. destruct len; simpl; constructor. lia.
Qed.

Lemma sortIndices_seq (lo len : nat) : sortIndices (seq lo len) = seq lo len.
Proof.
  apply (Sorted_unique Nat.le).
  - apply Sorted_merge_sort, _.
  - apply Sorted_le_seq.
  - apply merge_sort_Permutation.
Qed.

Lemma elem_of_rows (commits : list GitCommit) (r : row) :
  r ∈ rows commits ↔
  ∃ c, commits !! commitIndex r = Some c ∧ commitHash r = hash c.
Proof.
  unfold rows. rewrite list_elem_of_lookup. split.
  - intros (i & Hi). rewrite list_lookup_imap in Hi.
    destruct (commits !! i) as [c|] eqn:Hc; simplify_eq/=. by exists c.
  - intros (c & Hc & Hh). exists (commitIndex r).
    rewrite list_lookup_imap, Hc. simpl. destruct r. simpl in *. by subst.
Qed.

(** The consecutiveness test on a run of rows [lo .. lo + n]. *)
Lemma consecutive_seq (commits : list GitCommit) (lo n : nat) :
  lo + n < length commits →
  ∃ b, areCommitsConsecutive commits (seq lo (S n)) = Some b ∧
    (b = true ↔
     ∀ k, k < n → ∃ c d, commits !! (lo + k) = Some c ∧
                         commits !! (lo + S k) = Some d ∧
                         parents c = [hash d]).
Proof.
  revert lo. induction n as [|n IH]; intros lo Hlen.
  { exists true. split; [done|]. split; [|done]. intros _ k ?. lia. }
  destruct (IH (S lo)) as (b & Hb & Hiff); [lia|].
  destruct (lookup_lt_is_Some_2 commits lo) as [c Hc]; [lia|].
  destruct (lookup_lt_is_Some_2 commits (S lo)) as [d Hd]; [lia|].
  change (seq lo (S (S n))) with (lo :: S lo :: seq (S (S lo)) n).
  rewrite areCommitsConsecutive_cons, Hc. cbn [mbind option_bind].
  rewrite Hd. cbn [mbind option_bind].
  change (S lo :: seq (S (S lo)) n) with (seq (S lo) (S n)).
  assert (∀ k c' d', k = 0 → commits !! (lo + k) = Some c' →
                     commits !! (lo + S k) = Some d' → c' = c ∧ d' = d)
    as Hzero.
  { intros k c' d' ->. rewrite Nat.add_0_r, Nat.add_1_r. split; congruence. }
  case_decide as Hone.
  { exists false. split; [done|]. split; [done|]. intros Hall.
    destruct (Hall 0) as (c' & d' & Hc' & Hd' & Hp); [lia|].
    destruct (Hzero 0 c' d') as [-> ->]; [done..|]. by rewrite Hp in Hone. }
  case_decide as Hin.
  - exists b. split; [done|]. rewrite Hiff. split.
    + intros Hall [|k] Hk.
      * exists c, d. rewrite Nat.add_0_r, Nat.add_1_r. split_and!; [done..|].
        destruct (parents c) as [|p [|??]]; simplify_eq/=.
        by apply list_elem_of_singleton in Hin as ->.
      * destruct (Hall k) as (c' & d' & ? & ? & ?); [lia|].
        exists c', d'.
        replace (lo + S k) with (S lo + k) by lia.
        by replace (lo + S (S k)) with (S lo + S k) by lia.
    + intros Hall k Hk. destruct (Hall (S k)) as (c' & d' & ? & ? & ?); [lia|].
      exists c', d'.
      replace (S lo + k) with (lo + S k) by lia.
      by replace (S lo + S k) with (lo + S (S k)) by lia.
  - exists false. split; [done|]. split; [done|]. intros Hall.
    destruct (Hall 0) as (c' & d' & Hc' & Hd' & Hp); [lia|].
    destruct (Hzero 0 c' d') as [-> ->]; [done..|].
    destruct Hin. rewrite Hp. by left.
Qed.

(** The range handler on a run of rows [lo .. lo + n]. *)
Lemma rangeMenuClick_seq (commits : list GitCommit) (lo n : nat)
  (action : string) :
  lo + n < length commits →
  ∃ oldest, commits !! (lo + n) = Some oldest ∧
    rangeMenuClick commits (seq lo (S n)) action
    = Some (mkRangeMessage action (hash <$> take (S n) (drop lo commits))
                           (parents oldest !! 0)).
Proof.
  intros Hlen.
  destruct (lookup_lt_is_Some_2 commits (lo + n)) as [oldest Holdest]; [lia|].
  exists oldest. split; [done|]. unfold rangeMenuClick.
  rewrite sortIndices_seq.
  assert (mapM (λ i, hash <$> commits !! i) (seq lo (S n))
          = Some (hash <$> take (S n) (drop lo commits))) as ->.
  { apply mapM_Some_2, Forall2_same_length_lookup. split.
    - rewrite length_seq, length_fmap, length_take, length_drop. lia.
    - intros i k h [-> ?]%lookup_seq.
      rewrite list_lookup_fmap, lookup_take_lt, lookup_drop by done.
      by intros ->. }
  cbn [mbind option_bind].
  rewrite seq_S, last_snoc. cbn [mbind option_bind].
  by rewrite Holdest.
Qed.

Lemma Inv_hidden commits st :
  match rangeStartIndex st with
  | None => selectedIndices st = []
  | Some a =>
      ∃ lo n, selectedIndices st = seq lo (S n) ∧ lo ≤ a ∧ a ≤ lo + n ∧
              lo + n < length commits
  end →
  Consistent commits (hideMenus st).
Proof. intros Hsel. split; [done|]. split; simpl; done. Qed.

(** What a click on the single-commit menu leaves of the variables. *)
Lemma contextMenuClick_kept st item messageText st' out :
  contextMenuClick st item messageText = Some (st', out) →
  selectedCommitHash st' = selectedCommitHash st ∧
  selectedRow st' = selectedRow st ∧
  rangeStartIndex st' = rangeStartIndex st ∧
  selectedIndices st' = selectedIndices st.
Proof.
  unfold contextMenuClick. intros Hclick.
  destruct item as [action|], (selectedCommitHash st) as [h|] eqn:Hh;
    try (by simplify_eq).
  repeat case_decide; try (by simplify_eq).
  destruct (selectedRow st) eqn:Hrow, messageText; by simplify_eq.
Qed.

(** Every possible event other than a click on the single-commit menu is
    handled without an exception and keeps [Consistent]. *)
Lemma step_Inv (commits : list GitCommit) (st : pageState) (ev : event) :
  Consistent commits st → possible commits st ev →
  (∀ item messageText, ev ≠ MenuClick item messageText) →
  ∃ st' out, step commits st ev = Some (st', out) ∧ Consistent commits st'.
Proof.
  intros (Hsel & Hctx & Hrange) Hev Hother.
  destruct ev as [target shiftKey|target|item messageText|item|];
    cbn [possible step] in *.
  - (* click on the table *)
    eexists _, _. split; [reflexivity|]. apply Inv_hidden.
    destruct target as [r|]; [|done]. simpl.
    destruct (proj1 (elem_of_rows commits r) (Hev r eq_refl))
      as (c & Hc%lookup_lt_Some & _).
    destruct (if shiftKey then rangeStartIndex st else None) as [a|] eqn:Ha.
    + destruct shiftKey; [|done]. rewrite Ha in Hsel.
      cbn [rangeStartIndex selectedIndices]. rewrite Ha.
      destruct Hsel as (lo & n & _ & ? & ? & ?).
      exists (a `min` commitIndex r),
             (a `max` commitIndex r - a `min` commitIndex r).
      split_and!; [reflexivity | lia..].
    + cbn [rangeStartIndex selectedIndices].
      exists (commitIndex r), 0. split_and!; [reflexivity | lia..].
  - (* context menu on the table *)
    unfold tbodyContextMenu.
    destruct target as [r|];
      [|simpl; eexists _, _; split; [reflexivity|]; by apply Inv_hidden].
    destruct (proj1 (elem_of_rows commits r) (Hev r eq_refl))
      as (c & Hc & Hhash).
    cbn [hideMenus selectedIndices selectedCommitHash selectedRow
         rangeStartIndex squashItemShown].
    case_decide as Hin.
    + destruct Hin as [Hlen Hin].
      destruct (rangeStartIndex st) as [a|] eqn:Ha;
        [|by rewrite Hsel in Hlen; simpl in Hlen; lia].
      destruct Hsel as (lo & n & Hseq & ? & ? & ?).
      rewrite Hseq, sortIndices_seq.
      destruct (consecutive_seq commits lo n) as (b & Hb & _); [done|].
      rewrite Hb. simpl. eexists _, _. split; [reflexivity|]. split; [|split]; simpl.
      * rewrite ?Ha. by eexists _, _.
      * done.
      * intros _. rewrite Hseq in Hlen. split; [done|].
        exact Hb.
    + eexists _, _. split; [reflexivity|]. split; [|split]; simpl.
      * exists (commitIndex r), 0. split; [reflexivity|].
        apply lookup_lt_Some in Hc. lia.
      * intros _. split; [reflexivity|]. exists (commitIndex r), c. by rewrite Hhash.
      * done.
  - (* click on an item of the single-commit menu *)
    by destruct (Hother item messageText).
  - (* click on an item of the range menu *)
    destruct Hev as [Hshown _]. destruct (Hrange Hshown) as [Hlen _].
    destruct (rangeStartIndex st) as [a|] eqn:Ha;
      [|by rewrite Hsel in Hlen; simpl in Hlen; lia].
    destruct Hsel as (lo & n & Hseq & ? & ? & ?).
    unfold rangeMenuItemClick. destruct item as [action|].
    + rewrite Hseq.
      destruct (rangeMenuClick_seq commits lo n action) as (? & _ & ->);
        [done|]. simpl.
      eexists _, _. split; [reflexivity|]. apply Inv_hidden. simpl. rewrite ?Ha.
      by eexists _, _.
    + simpl. eexists _, _. split; [reflexivity|]. apply Inv_hidden. rewrite ?Ha.
      by eexists _, _.
  - eexists _, _. split; [reflexivity|]. by apply Inv_hidden.
Qed.

Lemma page_Inv_init commits : Consistent commits initial.
Proof. split; [done|]. split; simpl; done. Qed.

Lemma event_cases (ev : event) :
  (∃ item messageText, ev = MenuClick item messageText) ∨
  (∀ item messageText, ev ≠ MenuClick item messageText).
Proof. destruct ev; first [left; by eexists _, _ | by right]. Qed.

(** Every event that is handled keeps [Consistent]. *)
Lemma step_Consistent commits st ev st' out :
  Consistent commits st → possible commits st ev →
  step commits st ev = Some (st', out) → Consistent commits st'.
Proof.
  intros HInv Hev Hstep.
  destruct (event_cases ev) as [(item & messageText & ->)|Hother].
  - cbn [step] in Hstep.
    destruct (contextMenuClick st item messageText) as [[st1 out1]|] eqn:Hclick;
      [|done].
    simplify_eq/=.
    destruct (contextMenuClick_kept _ _ _ _ _ Hclick) as (_ & _ & Ha & Hsel).
    apply Inv_hidden. rewrite Ha, Hsel. apply HInv.
  - destruct (step_Inv commits st ev HInv Hev Hother)
      as (st'' & out' & Hstep' & ?).
    by simplify_eq.
Qed.

Lemma reachable_Inv commits st : reachable commits st → Consistent commits st.
Proof.
  induction 1 as [|st ev st' out _ IH Hev Hstep]; [apply page_Inv_init|].
  by eapply step_Consistent.
Qed.

(** [selectedRow] is set with [selectedCommitHash], and neither is reset. *)
Lemma reachable_selectedRow commits st :
  reachable commits st →
  is_Some (selectedCommitHash st) → is_Some (selectedRow st).
Proof.
  induction 1 as [|st ev st' out _ IH Hev Hstep]; [by intros [? [=]]|].
  destruct ev as [target shiftKey|target|item messageText|item|];
    cbn [step] in Hstep.
  - simplify_eq. unfold tbodyClick. destruct target as [r|]; [|done].
    by destruct (if shiftKey then rangeStartIndex st else None).
  - unfold tbodyContextMenu in Hstep. destruct target as [r|];
      [|by simplify_eq/=].
    case_decide.
    + destruct (Selection.areCommitsConsecutive _ _); by simplify_eq/=.
    + simplify_eq/=. by eexists.
  - destruct (contextMenuClick st item messageText) as [[st1 out1]|] eqn:Hclick;
      [|done].
    simplify_eq/=.
    destruct (contextMenuClick_kept _ _ _ _ _ Hclick) as (-> & -> & _). done.
  - unfold rangeMenuItemClick in Hstep. destruct item as [action|];
      [|by simplify_eq/=].
    destruct (Selection.rangeMenuClick _ _ _); by simplify_eq/=.
  - by simplify_eq/=.
Qed.

(** Two reachable states of the page of [scenario]: rows 0 and 1 selected
    with the range menu open, and row 3 with the single-commit menu open. *)
Lemma reachable_range_menu :
  reachable scenario (mkPage None None (Some 0) [0; 1] false true true).
Proof.
  apply (reachable_step scenario
           (mkPage None None (Some 0) [0; 1] false false true)
           (TbodyContextMenu (Some (mkRow 1 "C2"))) _ []);
    [|by intros r [= <-]; apply elem_of_rows; eexists|reflexivity].
  apply (reachable_step scenario
           (mkPage None None (Some 0) [0] false false true)
           (TbodyClick (Some (mkRow 1 "C2")) true) _ []);
    [|by intros r [= <-]; apply elem_of_rows; eexists|reflexivity].
  apply (reachable_step scenario initial
           (TbodyClick (Some (mkRow 0 "C1")) false) _ []);
    [|by intros r [= <-]; apply elem_of_rows; eexists|reflexivity].
  constructor.
Qed.

Lemma reachable_single_menu :
  reachable scenario
    (mkPage (Some "C4") (Some (mkRow 3 "C4")) (Some 3) [3] true false true).
Proof.
  apply (reachable_step scenario initial
           (TbodyContextMenu (Some (mkRow 3 "C4"))) _ []);
    [|by intros r [= <-]; apply elem_of_rows; eexists|reflexivity].
  constructor.
Qed.

(** After any sequence of clicks and context-menu events on the rendered
    page, the selection is empty with no anchor, or it is a run of
    consecutive existing rows, in ascending order, that contains the anchor
    row; the two menus are never displayed together. *)
Theorem selection_is_a_run (commits : list GitCommit) (st : pageState) :
  reachable commits st →
  ((rangeStartIndex st = None ∧ selectedIndices st = []) ∨
   (∃ a lo n, rangeStartIndex st = Some a ∧
              selectedIndices st = seq lo (S n) ∧
              lo ≤ a ∧ a ≤ lo + n ∧ lo + n < length commits)) ∧
  ¬ (contextMenuShown st = true ∧ rangeMenuShown st = true).
Proof.
  intros (Hsel & Hctx & _)%reachable_Inv. split.
  - destruct (rangeStartIndex st) as [a|]; [right|by left].
    destruct Hsel as (lo & n & ?). by exists a, lo, n.
  - intros [[Hno _]%Hctx Hyes]. congruence.
Qed.

Lemma selection_is_a_run_witness :
  ((rangeStartIndex (mkPage None None (Some 0) [0; 1] false true true) = None ∧
    selectedIndices (mkPage None None (Some 0) [0; 1] false true true) = []) ∨
   (∃ a lo n,
      rangeStartIndex (mkPage None None (Some 0) [0; 1] false true true)
        = Some a ∧
      selectedIndices (mkPage None None (Some 0) [0; 1] false true true)
        = seq lo (S n) ∧
      lo ≤ a ∧ a ≤ lo + n ∧ lo + n < length scenario)) ∧
  ¬ (contextMenuShown (mkPage None None (Some 0) [0; 1] false true true) = true ∧
     rangeMenuShown (mkPage None None (Some 0) [0; 1] false true true) = true).
Proof. apply (selection_is_a_run scenario _ reachable_range_menu). Defined.

(** The listeners of the table, of the two menus and of [document] raise in
    one case only. From every reachable state every possible event is
    handled, the consecutiveness test and the range handler reading only
    existing rows, unless the event is the choice of the inline edit while
    the selected row has no message span (an inline input stands in its
    place); then, with a non-empty recorded hash, the listener of the
    single-commit menu raises the [TypeError] of reading [textContent] of
    [null]. *)
Theorem page_never_throws (commits : list GitCommit) (st : pageState)
  (ev : event) :
  reachable commits st → possible commits st ev →
  (ev ≠ MenuClick (Some "editCommitMessage"%string) None →
   ∃ st' out, step commits st ev = Some (st', out) ∧ reachable commits st') ∧
  (ev = MenuClick (Some "editCommitMessage"%string) None →
   selectedCommitHash st ≠ Some ""%string →
   step commits st ev = None).
Proof.
  intros Hreach Hev. split.
  - intros Hspan.
    assert (∃ st' out, step commits st ev = Some (st', out))
      as (st' & out & Hstep).
    { destruct (event_cases ev) as [(item & messageText & ->)|Hother].
      - cbn [step possible] in *.
        destruct (reachable_Inv _ _ Hreach) as (_ & Hctx & _).
        destruct (Hctx Hev) as (_ & i & c & _ & _ & Hhash).
        destruct (reachable_selectedRow _ _ Hreach) as [r Hrow];
          [by rewrite Hhash|].
        unfold contextMenuClick. rewrite Hhash, Hrow.
        destruct item as [action|]; [|by eexists _, _].
        case_decide; [by eexists _, _|].
        case_decide as Hedit; [|by eexists _, _]. subst action.
        destruct messageText as [original|]; [by eexists _, _ | done].
      - destruct (step_Inv commits st ev (reachable_Inv _ _ Hreach) Hev Hother)
          as (st' & out & Hstep & _).
        by eexists _, _. }
    exists st', out. split; [done|]. by eapply reachable_step.
  - intros -> Hhash. cbn [step possible] in *.
    destruct (reachable_Inv _ _ Hreach) as (_ & Hctx & _).
    destruct (Hctx Hev) as (_ & i & c & _ & _ & Hc).
    unfold contextMenuClick. rewrite Hc in *.
    rewrite decide_False by congruence.
    rewrite decide_True by done. by destruct (selectedRow st).
Qed.

Lemma page_never_throws_witness :
  (∃ st' out,
     step scenario (mkPage None None (Some 0) [0; 1] false true true)
          (RangeMenuClick (Some "squashCommits")) = Some (st', out) ∧
     reachable scenario st') ∧
  step scenario
    (mkPage (Some "C4") (Some (mkRow 3 "C4")) (Some 3) [3] true false true)
    (MenuClick (Some "editCommitMessage") None) = None.
Proof.
  split.
  - apply (page_never_throws scenario _ _ reachable_range_menu).
    + simpl. split; reflexivity.
    + discriminate.
  - apply (page_never_throws scenario _ _ reachable_single_menu).
    + reflexivity.
    + reflexivity.
    + discriminate.
Defined.

(** While the single-commit menu is displayed exactly one row is selected,
    and an action chosen from it (other than the inline edit) is posted with
    the hash of that row's commit; with an empty hash nothing is posted.
    Both menus are hidden afterwards and the selection is kept. *)
Theorem menu_action_targets_selected_row (commits : list GitCommit)
  (st : pageState) (action : string) (messageText : option string) :
  reachable commits st → contextMenuShown st = true →
  action ≠ "editCommitMessage"%string →
  ∃ i c st',
    selectedIndices st = [i] ∧ commits !! i = Some c ∧
    step commits st (MenuClick (Some action) messageText)
      = Some (st', if decide (hash c = ""%string) then []
                   else [PostCommit action (hash c)]) ∧
    selectedIndices st' = [i] ∧
    contextMenuShown st' = false ∧ rangeMenuShown st' = false.
Proof.
  intros (_ & Hctx & _)%reachable_Inv Hshown Hne.
  destruct (Hctx Hshown) as (_ & i & c & Hsel & Hc & Hhash).
  exists i, c. simpl. unfold contextMenuClick. rewrite Hhash.
  case_decide; [by eexists|].
  rewrite decide_False by done. by eexists.
Qed.

Lemma menu_action_targets_selected_row_witness :
  ∃ i c st',
    selectedIndices
      (mkPage (Some "C4") (Some (mkRow 3 "C4")) (Some 3) [3] true false true)
      = [i] ∧
    scenario !! i = Some c ∧
    step scenario
      (mkPage (Some "C4") (Some (mkRow 3 "C4")) (Some 3) [3] true false true)
      (MenuClick (Some "cherryPick") (Some "fourth"))
      = Some (st', if decide (hash c = ""%string) then []
                   else [PostCommit "cherryPick" (hash c)]) ∧
    selectedIndices st' = [i] ∧
    contextMenuShown st' = false ∧ rangeMenuShown st' = false.
Proof.
  apply (menu_action_targets_selected_row scenario _ "cherryPick"
           (Some "fourth") reachable_single_menu).
  - reflexivity.
  - discriminate.
Defined.

(** While the range menu is displayed at least two rows are selected, a run
    [lo .. lo + n]; an action chosen from it is posted with the hashes of
    exactly those rows from the newest down, and with the first parent of
    the run's last commit as base. The squash item is displayed exactly
    when every commit of the run but the last has the next row's commit as
    its only parent. *)
Theorem range_action_posts_the_run (commits : list GitCommit) (st : pageState)
  (action : string) :
  reachable commits st → rangeMenuShown st = true →
  ∃ lo n oldest st',
    1 ≤ n ∧ selectedIndices st = seq lo (S n) ∧
    commits !! (lo + n) = Some oldest ∧
    step commits st (RangeMenuClick (Some action))
      = Some (st', [PostRange
                      (mkRangeMessage action
                         (hash <$> take (S n) (drop lo commits))
                         (parents oldest !! 0))]) ∧
    (squashItemShown st = true ↔
     ∀ k, k < n → ∃ c d, commits !! (lo + k) = Some c ∧
                         commits !! (lo + S k) = Some d ∧
                         parents c = [hash d]).
Proof.
  intros (Hsel & _ & Hrange)%reachable_Inv Hshown.
  destruct (Hrange Hshown) as [Hlen Hsquash].
  destruct (rangeStartIndex st) as [a|];
    [|by rewrite Hsel in Hlen; simpl in Hlen; lia].
  destruct Hsel as (lo & n & Hseq & _ & _ & Hlt).
  rewrite Hseq in Hlen, Hsquash. rewrite length_seq in Hlen.
  destruct (rangeMenuClick_seq commits lo n action Hlt)
    as (oldest & Holdest & Hclick).
  destruct (consecutive_seq commits lo n Hlt) as (b & Hb & Hiff).
  exists lo, n, oldest. eexists. split_and!; [lia | done | done | |].
  - cbn [step]. unfold rangeMenuItemClick. rewrite Hseq, Hclick. reflexivity.
  - rewrite <-Hiff. rewrite Hb in Hsquash. by simplify_eq.
Qed.

Lemma range_action_posts_the_run_witness :
  ∃ lo n oldest st',
    1 ≤ n ∧
    selectedIndices (mkPage None None (Some 0) [0; 1] false true true)
      = seq lo (S n) ∧
    scenario !! (lo + n) = Some oldest ∧
    step scenario (mkPage None None (Some 0) [0; 1] false true true)
         (RangeMenuClick (Some "squashCommits"))
      = Some (st', [PostRange
                      (mkRangeMessage "squashCommits"
                         (hash <$> take (S n) (drop lo scenario))
                         (parents oldest !! 0))]) ∧
    (squashItemShown (mkPage None None (Some 0) [0; 1] false true true) = true ↔
     ∀ k, k < n → ∃ c d, scenario !! (lo + k) = Some c ∧
                         scenario !! (lo + S k) = Some d ∧
                         parents c = [hash d]).
Proof.
  apply (range_action_posts_the_run scenario _ "squashCommits"
           reachable_range_menu).
  reflexivity.
Defined.

End page.

(** ** The Lane Allocator: how lanes follow the graph *)

Section lanes_graph.
Import Lanes.
Implicit Types (reserved : gmap string nat) (st : state).

Lemma reserveFirst_keeps reserved firstParent lane h l :
  reserved !! h = Some l → reserveFirst reserved firstParent lane !! h = Some l.
Proof.
  intros Hl. unfold reserveFirst.
  destruct (reserved !! firstParent) eqn:Hp; [done|].
  rewrite lookup_insert_ne; [done | congruence].
Qed.

Lemma claimLane_keeps st h lane reserved next h' l :
  claimLane st h = (lane, reserved, next) → h ≠ h' →
  reservedLanes st !! h' = Some l → reserved !! h' = Some l.
Proof.
  unfold claimLane. destruct (reservedLanes st !! h); intros [= <- <- <-] ? ?;
    [by rewrite lookup_delete_ne | done].
Qed.

Lemma processCommit_keeps fuel st commit st' h l :
  processCommit fuel st commit = Some st' → hash commit ≠ h →
  reservedLanes st !! h = Some l → reservedLanes st' !! h = Some l.
Proof.
  unfold processCommit.
  destruct (claimLane st (hash commit)) as [[lane reserved] next] eqn:Hclaim.
  intros Hst' Hne Hl.
  pose proof (claimLane_keeps _ _ _ _ _ _ _ Hclaim Hne Hl) as Hl'.
  destruct (parents commit) as [|firstParent others];
    [by simplify_eq/=|].
  destruct (forEach _ _ others) as [[r n]|] eqn:Hloop; [|done].
  simplify_eq/=. eapply reserveExtras_keeps; [done|].
  by apply reserveFirst_keeps.
Qed.

Lemma pass_keeps fuel st commits st' h l :
  pass fuel st commits = Some st' → h ∉ hash <$> commits →
  reservedLanes st !! h = Some l → reservedLanes st' !! h = Some l.
Proof.
  unfold pass. revert st. induction commits as [|c commits IH]; intros st; simpl.
  { by intros [= <-]. }
  destruct (processCommit fuel st c) as [st1|] eqn:H1; [|done]. simpl.
  intros Hst' [? ?]%not_elem_of_cons Hl.
  eapply IH; [done..|]. by eapply processCommit_keeps.
Qed.

(** Reservations are made for parents of processed commits only. *)
Lemma reserveExtras_None fuel reserved next others reserved' next' h :
  forEach (reserveExtra fuel) (reserved, next) others
    = Some (reserved', next') →
  reserved !! h = None → h ∉ others → reserved' !! h = None.
Proof.
  revert reserved next. induction others as [|p others IH];
    intros reserved next; simpl.
  { by intros [= <- <-]. }
  destruct (reserveExtra fuel (reserved, next) p) as [[r1 n1]|] eqn:H1;
    [|done]. simpl.
  intros Hrest Hh [? ?]%not_elem_of_cons. eapply IH; [done| |done].
  unfold reserveExtra in H1. destruct (reserved !! p); [by simplify_eq|].
  destruct (scanFree fuel _ 0); simplify_eq/=. by rewrite lookup_insert_ne.
Qed.

Lemma processCommit_None fuel st commit st' h :
  processCommit fuel st commit = Some st' →
  reservedLanes st !! h = None → h ∉ parents commit →
  reservedLanes st' !! h = None.
Proof.
  unfold processCommit, claimLane. intros Hst' Hh Hnot.
  assert (∀ lane reserved next,
    (lane, reserved, next)
    = match reservedLanes st !! hash commit with
      | Some lane => (lane, delete (hash commit) (reservedLanes st), nextLane st)
      | None => (nextLane st, reservedLanes st, S (nextLane st))
      end → reserved !! h = None) as Hclaim.
  { intros lane reserved next.
    destruct (reservedLanes st !! hash commit); intros [= -> -> ->];
      [by rewrite lookup_delete_None; right | done]. }
  destruct (match reservedLanes st !! hash commit with
            | Some _ => _ | None => _ end) as [[lane reserved] next] eqn:E.
  specialize (Hclaim _ _ _ eq_refl).
  destruct (parents commit) as [|firstParent others]; [by simplify_eq/=|].
  apply not_elem_of_cons in Hnot as [? ?].
  destruct (forEach _ _ others) as [[r n]|] eqn:Hloop; [|done].
  simplify_eq/=. eapply reserveExtras_None; [done| |done].
  unfold reserveFirst. destruct (reserved !! firstParent); [done|].
  by rewrite lookup_insert_ne.
Qed.

Lemma pass_None fuel st commits st' h :
  pass fuel st commits = Some st' →
  reservedLanes st !! h = None → (∀ c, c ∈ commits → h ∉ parents c) →
  reservedLanes st' !! h = None.
Proof.
  unfold pass. revert st. induction commits as [|c commits IH]; intros st; simpl.
  { by intros [= <-]. }
  destruct (processCommit fuel st c) as [st1|] eqn:H1; [|done]. simpl.
  intros Hst' Hh Hall. eapply IH; [done| |].
  - eapply processCommit_None; [done..|]. apply Hall. by left.
  - intros c' ?. apply Hall. by right.
Qed.

(** After a commit is processed each of its parents has a reservation. *)
Lemma reserveExtras_reserved fuel reserved next others reserved' next' h :
  forEach (reserveExtra fuel) (reserved, next) others
    = Some (reserved', next') →
  h ∈ others → is_Some (reserved' !! h).
Proof.
  revert reserved next. induction others as [|p others IH];
    intros reserved next; simpl.
  { by intros _ ?%elem_of_nil. }
  destruct (reserveExtra fuel (reserved, next) p) as [[r1 n1]|] eqn:H1;
    [|done]. simpl.
  intros Hrest [->|Hin]%elem_of_cons; [|by eapply IH].
  assert (is_Some (r1 !! p)) as [l Hl].
  { unfold reserveExtra in H1. destruct (reserved !! p) eqn:Hp.
    - simplify_eq. by eexists.
    - destruct (scanFree fuel _ 0); simplify_eq/=.
      rewrite lookup_insert_eq. by eexists. }
  exists l. by eapply reserveExtras_keeps.
Qed.

Lemma processCommit_reserved fuel st commit st' h :
  processCommit fuel st commit = Some st' → h ∈ parents commit →
  is_Some (reservedLanes st' !! h).
Proof.
  unfold processCommit.
  destruct (claimLane st (hash commit)) as [[lane reserved] next].
  destruct (parents commit) as [|firstParent others];
    [by intros _ ?%elem_of_nil|].
  destruct (forEach _ _ others) as [[r n]|] eqn:Hloop; [|done].
  intros [= <-] [->|Hin]%elem_of_cons; simpl;
    [|by eapply reserveExtras_reserved].
  assert (is_Some (reserveFirst reserved firstParent lane !! firstParent))
    as [l Hl].
  { unfold reserveFirst. destruct (reserved !! firstParent) eqn:Hp;
      [by rewrite Hp|]. rewrite lookup_insert_eq. by eexists. }
  exists l. by eapply reserveExtras_keeps.
Qed.

(** The pass up to a commit, its iteration, and the rest. *)
Lemma pass_split fuel st (pre : list GitCommit) c post st' :
  pass fuel st (pre ++ c :: post) = Some st' →
  ∃ st0 st1,
    pass fuel st pre = Some st0 ∧
    processCommit fuel st0 c = Some st1 ∧
    pass fuel st1 post = Some st'.
Proof.
  unfold pass. rewrite forEach_app.
  destruct (forEach _ st pre) as [st0|]; [|done]. simpl.
  destruct (processCommit fuel st0 c) as [st1|] eqn:H1; [|done]. simpl.
  intros Hst. by exists st0, st1.
Qed.

Lemma pass_commitLanes_total fuel st commits st' c :
  pass fuel st commits = Some st' → c ∈ commits →
  is_Some (commitLanes st' !! hash c).
Proof.
  intros Hst (pre & post & ->)%list_elem_of_split.
  apply pass_split in Hst as (st0 & st1 & _ & H1 & Hpost).
  eapply pass_commitLanes_dom; [done|].
  rewrite (processCommit_commitLanes _ _ _ _ H1), lookup_insert_eq.
  by eexists.
Qed.

(** The lane a row takes is the final lane of its hash when no later row has
    the same hash. *)
Lemma row_lane fuel st0 c st1 post st' :
  processCommit fuel st0 c = Some st1 → pass fuel st1 post = Some st' →
  hash c ∉ hash <$> post →
  commitLanes st' !! hash c = Some (claimLane st0 (hash c)).1.1.
Proof.
  intros H1 Hpost Hfresh.
  rewrite (pass_commitLanes_other _ _ _ _ _ Hpost Hfresh).
  by rewrite (processCommit_commitLanes _ _ _ _ H1), lookup_insert_eq.
Qed.

Lemma claimLane_reserved st h l :
  reservedLanes st !! h = Some l → (claimLane st h).1.1 = l.
Proof. intros Hl. unfold claimLane. by rewrite Hl. Qed.

Lemma claimLane_fresh st h :
  reservedLanes st !! h = None → (claimLane st h).1.1 = nextLane st.
Proof. intros Hl. unfold claimLane. by rewrite Hl. Qed.

(** The first parent of a commit, when it has no reservation yet, is reserved
    the commit's lane. *)
Lemma processCommit_first fuel st commit st' p others :
  processCommit fuel st commit = Some st' → parents commit = p :: others →
  reservedLanes st !! p = None →
  reservedLanes st' !! p = Some (claimLane st (hash commit)).1.1.
Proof.
  unfold processCommit. intros Hst' Hps Hp.
  destruct (claimLane st (hash commit)) as [[lane reserved] next] eqn:Hclaim.
  assert (reserved !! p = None) as Hp'.
  { revert Hclaim. unfold claimLane.
    destruct (reservedLanes st !! hash commit); intros [= <- <- <-];
      [by rewrite lookup_delete_None; right | done]. }
  rewrite Hps in Hst'.
  destruct (forEach _ _ others) as [[r n]|] eqn:Hloop; [|done].
  simplify_eq/=. eapply reserveExtras_keeps; [done|].
  unfold reserveFirst. by rewrite Hp', lookup_insert_eq.
Qed.

(** The hashes of a list without repetition, around one and two rows. *)
Lemma NoDup_hash_row (pre : list GitCommit) c post :
  NoDup (hash <$> pre ++ c :: post) →
  (hash c ∉ hash <$> pre) ∧ (hash c ∉ hash <$> post) ∧
  (∀ c', c' ∈ pre → hash c' ∉ hash <$> c :: post).
Proof.
  rewrite fmap_app, fmap_cons.
  intros (Hpre & Hdisj & [Hc Hpost]%NoDup_cons)%NoDup_app.
  split_and!; [|done|].
  - intros Hin. apply (Hdisj _ Hin). by left.
  - intros c' Hc' Hin. eapply Hdisj; [|done]. by apply list_elem_of_fmap_2.
Qed.

(** The keys of the returned map are the hashes of the list, no more and no
    fewer; in particular the empty list gives the empty map. *)
Theorem lanes_keys (commits : list GitCommit) (fuel : nat) :
  parentCount commits ≤ fuel →
  ∃ lanes, calculateLanes fuel commits = Some lanes ∧
    ∀ h, is_Some (lanes !! h) ↔ h ∈ hash <$> commits.
Proof.
  intros Hfuel.
  destruct (calculateLanes_enough fuel commits Hfuel) as [lanes Hlanes].
  exists lanes. split; [done|]. intros h. split.
  - intros Hh. destruct (decide (h ∈ hash <$> commits)) as [|Hnot]; [done|].
    unfold calculateLanes in Hlanes.
    destruct (pass fuel init commits) as [st|] eqn:Hst; simplify_eq/=.
    rewrite (pass_commitLanes_other _ _ _ _ _ Hst Hnot) in Hh.
    simpl in Hh. rewrite lookup_empty in Hh. by destruct Hh.
  - intros (c & -> & Hc)%list_elem_of_fmap.
    by eapply calculateLanes_total.
Qed.

Lemma lanes_keys_witness :
  ∃ lanes, calculateLanes 5 scenario = Some lanes ∧
    ∀ h, is_Some (lanes !! h) ↔ h ∈ hash <$> scenario.
Proof. apply (lanes_keys scenario 5). simpl. lia. Defined.

(** A commit reached before its first parent, and before any other commit
    names that parent, passes its lane on: the parent ends in the lane of
    this, its first child. *)
Theorem first_parent_inherits_lane (pre mid post : list GitCommit)
  (c d : GitCommit) (others : list string) (fuel : nat) :
  NoDup (hash <$> pre ++ c :: mid ++ d :: post) →
  parents c = hash d :: others →
  Forall (λ c', hash d ∉ parents c') pre →
  parentCount (pre ++ c :: mid ++ d :: post) ≤ fuel →
  ∃ lanes l,
    calculateLanes fuel (pre ++ c :: mid ++ d :: post) = Some lanes ∧
    lanes !! hash c = Some l ∧ lanes !! hash d = Some l.
Proof.
  intros Hnodup Hps Hfirst Hfuel.
  destruct (calculateLanes_enough fuel _ Hfuel) as [lanes Hlanes].
  exists lanes, (claimLane
                   (default init (pass fuel init pre)) (hash c)).1.1.
  split; [done|]. unfold calculateLanes in Hlanes.
  destruct (pass fuel init _) as [st|] eqn:Hst; simplify_eq/=.
  destruct (pass_split _ _ _ _ _ _ Hst) as (st0 & st1 & Hpre & H1 & Hrest).
  destruct (pass_split _ _ _ _ _ _ Hrest) as (st2 & st3 & Hmid & H3 & Hpost).
  rewrite Hpre. simpl.
  destruct (NoDup_hash_row _ _ _ Hnodup) as (_ & Hc & _).
  rewrite app_comm_cons, app_assoc in Hnodup.
  destruct (NoDup_hash_row _ _ _ Hnodup) as (Hd & Hd' & _).
  rewrite fmap_app, fmap_cons in Hd.
  apply not_elem_of_app in Hd as [_ [Hdc Hdmid]%not_elem_of_cons].
  assert (reservedLanes st1 !! hash d
          = Some (claimLane st0 (hash c)).1.1) as Hres1.
  { eapply processCommit_first; [done..|].
    eapply (pass_None fuel init pre); [done | apply lookup_empty |].
    by apply Forall_forall. }
  split.
  - by eapply row_lane.
  - rewrite (row_lane _ _ _ _ _ _ H3 Hpost Hd'). f_equal.
    apply claimLane_reserved. by eapply pass_keeps.
Qed.

Lemma first_parent_inherits_lane_witness :
  ∃ lanes l,
    calculateLanes 5
      ([commitOf "C1" ["C2"]] ++ commitOf "C2" ["C3"; "C4"]
         :: [] ++ commitOf "C3" ["C5"]
         :: [commitOf "C4" ["C5"]; commitOf "C5" []]) = Some lanes ∧
    lanes !! hash (commitOf "C2" ["C3"; "C4"]) = Some l ∧
    lanes !! hash (commitOf "C3" ["C5"]) = Some l.
Proof.
  refine (first_parent_inherits_lane [commitOf "C1" ["C2"]] []
            [commitOf "C4" ["C5"]; commitOf "C5" []]
            (commitOf "C2" ["C3"; "C4"]) (commitOf "C3" ["C5"]) ["C4"] 5
            _ _ _ _).
  - compute_done.
  - reflexivity.
  - compute_done.
  - simpl. lia.
Defined.

Lemma open_branch_lanes fuel (pre mid post : list GitCommit) d1 d2 lanes :
  calculateLanes fuel (pre ++ d1 :: mid ++ d2 :: post) = Some lanes →
  NoDup (hash <$> pre ++ d1 :: mid ++ d2 :: post) →
  Exists (λ c, hash d2 ∈ parents c) pre →
  ∃ l1 l2,
    lanes !! hash d1 = Some l1 ∧ lanes !! hash d2 = Some l2 ∧ l1 ≠ l2.
Proof.
  intros Hlanes Hnodup (c & Hc & Hparent)%Exists_exists.
  unfold calculateLanes in Hlanes.
  destruct (pass fuel init _) as [st|] eqn:Hst; simplify_eq/=.
  destruct (pass_split _ _ _ _ _ _ Hst) as (st0 & st1 & Hpre & H1 & Hrest).
  destruct (pass_split _ _ _ _ _ _ Hrest) as (st2 & st3 & Hmid & H3 & Hpost).
  destruct (NoDup_hash_row _ _ _ Hnodup) as (_ & Hd1 & _).
  rewrite app_comm_cons, app_assoc in Hnodup.
  destruct (NoDup_hash_row _ _ _ Hnodup) as (Hd & Hd2 & _).
  rewrite fmap_app, fmap_cons in Hd.
  apply not_elem_of_app in Hd as [Hdpre [Hne Hdmid]%not_elem_of_cons].
  (* the reservation made when [c] was processed is still there *)
  assert (∃ l2, reservedLanes st0 !! hash d2 = Some l2) as [l2 Hl2].
  { apply list_elem_of_split in Hc as (pre1 & pre2 & ->).
    destruct (pass_split _ _ _ _ _ _ Hpre) as (sa & sb & _ & Hb & Hpre2).
    destruct (processCommit_reserved _ _ _ _ _ Hb Hparent) as [l2 Hl2].
    exists l2. eapply pass_keeps; [done| |done].
    rewrite fmap_app, fmap_cons in Hdpre.
    by apply not_elem_of_app in Hdpre as [_ [_ ?]%not_elem_of_cons]. }
  pose proof (pass_ok _ _ _ _ Inv_init Hpre) as HInv.
  destruct (claimLane st0 (hash d1)) as [[l1 reserved] next] eqn:Hclaim.
  destruct (claimLane_ok _ _ _ _ _ HInv Hclaim) as (_ & _ & Hfree & _).
  assert (hash d1 ≠ hash d2) as Hne' by congruence.
  pose proof (claimLane_keeps _ _ _ _ _ _ _ Hclaim Hne' Hl2) as Hl2'.
  exists l1, l2. split_and!.
  - erewrite row_lane; [|done..]. by rewrite Hclaim.
  - rewrite (row_lane _ _ _ _ _ _ H3 Hpost Hd2). f_equal.
    apply claimLane_reserved. eapply pass_keeps; [done..|].
    by eapply processCommit_keeps.
  - intros ->. by destruct (Hfree (hash d2)).
Qed.

(** An edge that passes a row never runs in that row's lane: when a commit
    [d2] has been named as a parent before row [d1] is reached and comes after
    it, the two end in different lanes. *)
Theorem open_branch_lane_is_not_reused (pre mid post : list GitCommit)
  (d1 d2 : GitCommit) (fuel : nat) :
  NoDup (hash <$> pre ++ d1 :: mid ++ d2 :: post) →
  Exists (λ c, hash d2 ∈ parents c) pre →
  parentCount (pre ++ d1 :: mid ++ d2 :: post) ≤ fuel →
  ∃ lanes l1 l2,
    calculateLanes fuel (pre ++ d1 :: mid ++ d2 :: post) = Some lanes ∧
    lanes !! hash d1 = Some l1 ∧ lanes !! hash d2 = Some l2 ∧ l1 ≠ l2.
Proof.
  intros Hnodup Hopen Hfuel.
  destruct (calculateLanes_enough fuel _ Hfuel) as [lanes Hlanes].
  destruct (open_branch_lanes _ _ _ _ _ _ _ Hlanes Hnodup Hopen)
    as (l1 & l2 & ?).
  by exists lanes, l1, l2.
Qed.

Lemma open_branch_lane_is_not_reused_witness :
  ∃ lanes l1 l2,
    calculateLanes 5
      ([commitOf "C1" ["C2"]; commitOf "C2" ["C3"; "C4"]]
         ++ commitOf "C3" ["C5"] :: [] ++ commitOf "C4" ["C5"]
         :: [commitOf "C5" []]) = Some lanes ∧
    lanes !! hash (commitOf "C3" ["C5"]) = Some l1 ∧
    lanes !! hash (commitOf "C4" ["C5"]) = Some l2 ∧ l1 ≠ l2.
Proof.
  refine (open_branch_lane_is_not_reused
            [commitOf "C1" ["C2"]; commitOf "C2" ["C3"; "C4"]] []
            [commitOf "C5" []] (commitOf "C3" ["C5"]) (commitOf "C4" ["C5"]) 5
            _ _ _).
  - compute_done.
  - compute_done.
  - simpl. lia.
Defined.

(** A commit that no earlier commit names as a parent (a branch tip) opens a
    new lane to the right of every commit above it. *)
Theorem branch_tip_takes_fresh_lane (pre post : list GitCommit)
  (c : GitCommit) (fuel : nat) :
  NoDup (hash <$> pre ++ c :: post) →
  Forall (λ c', hash c ∉ parents c') pre →
  parentCount (pre ++ c :: post) ≤ fuel →
  ∃ lanes l,
    calculateLanes fuel (pre ++ c :: post) = Some lanes ∧
    lanes !! hash c = Some l ∧
    ∀ c', c' ∈ pre → ∃ l', lanes !! hash c' = Some l' ∧ l' < l.
Proof.
  intros Hnodup Hfirst Hfuel.
  destruct (calculateLanes_enough fuel _ Hfuel) as [lanes Hlanes].
  pose proof Hlanes as Hcalc. unfold calculateLanes in Hlanes.
  destruct (pass fuel init _) as [st|] eqn:Hst; simplify_eq/=.
  destruct (pass_split _ _ _ _ _ _ Hst) as (st0 & st1 & Hpre & H1 & Hpost).
  destruct (NoDup_hash_row _ _ _ Hnodup) as (_ & Hc & Hothers).
  assert (reservedLanes st0 !! hash c = None) as Hnone.
  { eapply (pass_None fuel init pre); [done | apply lookup_empty |].
    by apply Forall_forall. }
  destruct (pass_ok _ _ _ _ Inv_init Hpre) as [_ Hbelow].
  exists (commitLanes st), (nextLane st0). split_and!; [exact Hcalc| |].
  - erewrite row_lane; [|done..]. f_equal. by apply claimLane_fresh.
  - intros c' Hc'.
    destruct (pass_commitLanes_total _ _ _ _ _ Hpre Hc') as [l' Hl'].
    exists l'. split; [|by eapply Hbelow].
    assert (pass fuel st0 (c :: post) = Some st) as Hrest.
    { unfold pass. simpl. rewrite H1. done. }
    by rewrite (pass_commitLanes_other _ _ _ _ _ Hrest (Hothers _ Hc')).
Qed.

Lemma branch_tip_takes_fresh_lane_witness :
  ∃ lanes l,
    calculateLanes 2
      ([commitOf "a" ["b"]; commitOf "b" []] ++ commitOf "t" ["b"] :: [])
      = Some lanes ∧
    lanes !! hash (commitOf "t" ["b"]) = Some l ∧
    ∀ c', c' ∈ [commitOf "a" ["b"]; commitOf "b" []] →
          ∃ l', lanes !! hash c' = Some l' ∧ l' < l.
Proof.
  refine (branch_tip_takes_fresh_lane [commitOf "a" ["b"]; commitOf "b" []] []
            (commitOf "t" ["b"]) 2 _ _ _).
  - compute_done.
  - compute_done.
  - simpl. lia.
Defined.

(** An additional parent raises [nextLane] by at most one: the lane found
    by the scan is at most [nextLane]. *)
Lemma reserveExtra_next fuel reserved next parent reserved' next' :
  reservedOk reserved next →
  reserveExtra fuel (reserved, next) parent = Some (reserved', next') →
  next' ≤ S next.
Proof.
  intros [_ Hlt]. unfold reserveExtra.
  destruct (reserved !! parent); [intros [= <- <-]; lia|].
  destruct (scanFree fuel _ 0) as [k|] eqn:Hk; [|done]. simpl.
  intros [= <- <-]. apply scanFree_Some in Hk as (_ & _ & Hbelow & _).
  destruct (decide (k ≤ next)); [lia|].
  destruct (elem_of_map_img_1 (SA:=gset nat) reserved next) as [h Hh].
  { apply Hbelow; lia. }
  apply Hlt in Hh. lia.
Qed.

Lemma reserveExtras_next fuel reserved next others reserved' next' :
  reservedOk reserved next →
  forEach (reserveExtra fuel) (reserved, next) others
    = Some (reserved', next') →
  next' ≤ next + length others.
Proof.
  revert reserved next. induction others as [|p others IH];
    intros reserved next Hok; simpl.
  { intros [= <- <-]. lia. }
  destruct (reserveExtra fuel (reserved, next) p) as [[r1 n1]|] eqn:H1;
    [|done]. simpl.
  pose proof (reserveExtra_next _ _ _ _ _ _ Hok H1).
  destruct (reserveExtra_ok _ _ _ _ _ _ Hok H1) as [Hok1 _].
  intros ?%IH; [lia | done].
Qed.

Lemma processCommit_next fuel st commit st' :
  Inv st → processCommit fuel st commit = Some st' →
  nextLane st' ≤ nextLane st + 1 + (length (parents commit) - 1).
Proof.
  intros HInv. unfold processCommit.
  destruct (claimLane st (hash commit)) as [[lane reserved] next] eqn:Hclaim.
  destruct (claimLane_ok _ _ _ _ _ HInv Hclaim) as (Hok & Hlane & Hfree & _).
  assert (next ≤ S (nextLane st)).
  { revert Hclaim. unfold claimLane.
    destruct (reservedLanes st !! hash commit); intros [= <- <- <-]; lia. }
  destruct (parents commit) as [|firstParent others].
  { intros [= <-]. simpl. lia. }
  destruct (forEach _ _ others) as [[r n]|] eqn:Hloop; [|done].
  intros [= <-]. simpl.
  apply reserveExtras_next in Hloop; [lia|]. by apply reserveFirst_ok.
Qed.

Lemma pass_next fuel st commits st' :
  Inv st → pass fuel st commits = Some st' →
  nextLane st' ≤ nextLane st + length commits + extraParentCount commits.
Proof.
  unfold pass, extraParentCount. revert st.
  induction commits as [|c commits IH]; intros st HInv; simpl.
  { intros [= <-]. lia. }
  destruct (processCommit fuel st c) as [st1|] eqn:H1; [|done]. simpl.
  pose proof (processCommit_next _ _ _ _ HInv H1).
  destruct (processCommit_ok _ _ _ _ HInv H1) as [HInv1 _].
  intros ?%IH; [lia | done].
Qed.

(** Every lane is below the number of commits plus the number of merge
    edges (parent entries beyond a commit's first). *)
Theorem lanes_bounded (commits : list GitCommit) (fuel : nat) :
  parentCount commits ≤ fuel →
  ∃ lanes, calculateLanes fuel commits = Some lanes ∧
    ∀ h l, lanes !! h = Some l →
           l < length commits + extraParentCount commits.
Proof.
  intros Hfuel.
  destruct (calculateLanes_enough fuel commits Hfuel) as [lanes Hlanes].
  exists lanes. split; [done|]. unfold calculateLanes in Hlanes.
  destruct (pass fuel init commits) as [st|] eqn:Hst; simplify_eq/=.
  destruct (pass_ok _ _ _ _ Inv_init Hst) as [_ Hbelow].
  pose proof (pass_next _ _ _ _ Inv_init Hst) as Hnext. simpl in Hnext.
  intros h l Hl%Hbelow. lia.
Qed.

Lemma lanes_bounded_witness :
  ∃ lanes, calculateLanes 5 scenario = Some lanes ∧
    ∀ h l, lanes !! h = Some l →
           l < length scenario + extraParentCount scenario.
Proof. apply (lanes_bounded scenario 5). simpl. lia. Defined.

End lanes_graph.

(** ** Edge routing: rows and the edges between them *)

Section canvas_edges.
Import Lanes Canvas.

Lemma findIndexFrom_cases (i : nat) (commits : list GitCommit) (h : string) :
  ((h ∉ hash <$> commits) ∧ findIndexFrom i commits h = (-1)%Z) ∨
  (∃ k c, findIndexFrom i commits h = Z.of_nat (i + k) ∧
          commits !! k = Some c ∧ hash c = h ∧
          ∀ j c', j < k → commits !! j = Some c' → hash c' ≠ h).
Proof.
  revert i. induction commits as [|c commits IH]; intros i; simpl.
  { left. split; [apply not_elem_of_nil | done]. }
  case_decide as Hc.
  - right. exists 0, c. rewrite Nat.add_0_r. split_and!; [done..|].
    intros j c' ?. lia.
  - destruct (IH (S i)) as [[Hnot ->]|(k & c' & -> & Hk & Hh & Hfirst)].
    + left. split; [|done]. by apply not_elem_of_cons.
    + right. exists (S k), c'. split_and!; [f_equal; lia | done | done |].
      intros [|j] c'' ? Hj; simplify_eq/=; [done|].
      eapply Hfirst; [|done]. lia.
Qed.

(** [findIndex] answers the first row whose commit has the hash, and -1
    exactly when no commit has it. *)
Theorem findIndex_first_match (commits : list GitCommit) (h : string) :
  ((h ∉ hash <$> commits) ∧ findIndex commits h = (-1)%Z) ∨
  (∃ k c, findIndex commits h = Z.of_nat k ∧
          commits !! k = Some c ∧ hash c = h ∧
          ∀ j c', j < k → commits !! j = Some c' → hash c' ≠ h).
Proof. apply (findIndexFrom_cases 0). Qed.

Lemma findIndex_unique (commits : list GitCommit) (k : nat) (c : GitCommit) :
  NoDup (hash <$> commits) → commits !! k = Some c →
  findIndex commits (hash c) = Z.of_nat k.
Proof.
  intros Hnodup Hk.
  assert (∀ j c', commits !! j = Some c' → hash c' = hash c → j = k) as Huniq.
  { intros j c' Hj Hh. eapply NoDup_lookup; [done| |].
    - by rewrite list_lookup_fmap, Hj.
    - by rewrite list_lookup_fmap, Hk, Hh. }
  unfold findIndex.
  destruct (findIndexFrom_cases 0 commits (hash c))
    as [[Hnot _]|(k' & c' & -> & Hk' & Hh & _)].
  - destruct Hnot. apply list_elem_of_fmap. exists c.
    split; [done|]. by eapply list_elem_of_lookup_2.
  - f_equal. by eapply Huniq.
Qed.

(** In a list without repeated hashes [findIndex] inverts the row lookup. *)
Theorem findIndex_of_row (commits : list GitCommit) (k : nat)
  (c : GitCommit) :
  NoDup (hash <$> commits) → commits !! k = Some c →
  findIndex commits (hash c) = Z.of_nat k.
Proof. apply findIndex_unique. Qed.

Lemma findIndex_of_row_witness : findIndex scenario "C4" = Z.of_nat 3.
Proof.
  refine (findIndex_of_row scenario 3 (commitOf "C4" ["C5"]) _ _).
  - compute_done.
  - reflexivity.
Defined.

Lemma elem_of_take_lookup {A} (l : list A) (i k : nat) (x : A) :
  l !! i = Some x → i < k → x ∈ take k l.
Proof.
  intros Hi Hlt. apply list_elem_of_lookup. exists i.
  by rewrite lookup_take_lt.
Qed.

(** What the rows of an edge contain, for any lane map. *)
Lemma edge_rows (commits : list GitCommit) (commitLanes : gmap string nat)
  (headCommitHash : option string) (i j : nat) (child parent : GitCommit)
  (lc lp : nat) :
  NoDup (hash <$> commits) →
  commits !! i = Some child → commits !! j = Some parent → i < j →
  hash parent ∈ parents child →
  commitLanes !! hash child = Some lc → commitLanes !! hash parent = Some lp →
  (∃ segs,
     GraphCanvas child i commits commitLanes headCommitHash = Some segs ∧
     LowerHalf (Some lc) ∈ segs ∧
     (lc ≠ lp → OutgoingCurve (Some lc) lp ∈ segs)) ∧
  (∀ k c, i < k → k < j → commits !! k = Some c →
     ∃ segs,
       GraphCanvas c k commits commitLanes headCommitHash = Some segs ∧
       (commitLanes !! hash c ≠ Some lp → Passthrough lp ∈ segs)) ∧
  (∃ segs,
     GraphCanvas parent j commits commitLanes headCommitHash = Some segs ∧
     UpperHalf (Some lp) ∈ segs ∧
     (lc ≠ lp → IncomingCurve (Some lc) (Some lp) ∈ segs)).
Proof.
  intros Hnodup Hi Hj Hlt Hparent Hlc Hlp.
  pose proof (findIndex_unique commits j parent Hnodup Hj) as Hfind.
  pose proof (lookup_lt_Some _ _ _ Hj) as Hjlen.
  split_and!.
  - unfold GraphCanvas. rewrite rowsBefore_take by lia.
    eexists. split; [done|]. rewrite Hlc. split.
    + rewrite !elem_of_app. right. left. right.
      assert (hasOutgoing commits i child = true) as ->; [|by left].
      unfold hasOutgoing. apply existsb_exists. exists (hash parent).
      split; [by apply list_elem_of_In|].
      unfold outgoingEdge. rewrite Hfind. apply bool_decide_eq_true. lia.
    + intros Hne. rewrite !elem_of_app. do 3 right. left.
      apply list_elem_of_bind. exists (hash parent). split; [|done].
      unfold outgoingCurve. rewrite Hfind, Hlp.
      rewrite decide_True by lia. rewrite decide_True by congruence.
      by left.
  - intros k c Hik Hkj Hk. unfold GraphCanvas.
    rewrite rowsBefore_take by lia.
    eexists. split; [done|]. intros Hne. rewrite !elem_of_app. left.
    apply list_elem_of_bind. exists child.
    split; [|by eapply elem_of_take_lookup].
    apply list_elem_of_bind. exists (hash parent). split; [|done].
    unfold passthroughEdge. rewrite Hfind, Hlp.
    rewrite decide_True by lia. rewrite decide_True by congruence.
    by left.
  - unfold GraphCanvas. rewrite rowsBefore_take by lia.
    eexists. split; [done|]. rewrite Hlp. split.
    + rewrite !elem_of_app. right. left. left.
      assert (hasIncoming commits j parent = true) as ->; [|by left].
      unfold hasIncoming. apply andb_true_iff. split.
      * apply bool_decide_eq_true. lia.
      * apply existsb_exists. exists child.
        split; [by eapply list_elem_of_In, elem_of_take_lookup|].
        by apply bool_decide_eq_true.
    + intros Hne. rewrite !elem_of_app. do 2 right. left.
      apply list_elem_of_bind. exists child.
      split; [|by eapply elem_of_take_lookup].
      unfold incomingCurve. rewrite decide_True by done. rewrite Hlc.
      rewrite decide_True by congruence. by left.
Qed.

(** In the graph drawn from the allocator's lane map over a list without
    repeated hashes, every parent edge from row [i] down to row [j] is drawn
    in each row it touches: the lower half of the child's lane line (and a
    connector towards the parent's lane when the lanes differ) in row [i], a
    full-height line in the parent's lane in every row strictly between, and
    the upper half of the parent's lane line (with the connector from the
    child's lane when the lanes differ) in row [j]. No row raises. *)
Theorem every_edge_is_drawn (commits : list GitCommit) (fuel : nat)
  (headCommitHash : option string) (i j : nat) (child parent : GitCommit) :
  NoDup (hash <$> commits) →
  commits !! i = Some child → commits !! j = Some parent → i < j →
  hash parent ∈ parents child →
  parentCount commits ≤ fuel →
  ∃ lanes lc lp,
    calculateLanes fuel commits = Some lanes ∧
    lanes !! hash child = Some lc ∧ lanes !! hash parent = Some lp ∧
    (∃ segs,
       GraphCanvas child i commits lanes headCommitHash = Some segs ∧
       LowerHalf (Some lc) ∈ segs ∧
       (lc ≠ lp → OutgoingCurve (Some lc) lp ∈ segs)) ∧
    (∀ k c, i < k → k < j → commits !! k = Some c →
       ∃ segs,
         GraphCanvas c k commits lanes headCommitHash = Some segs ∧
         Passthrough lp ∈ segs) ∧
    (∃ segs,
       GraphCanvas parent j commits lanes headCommitHash = Some segs ∧
       UpperHalf (Some lp) ∈ segs ∧
       (lc ≠ lp → IncomingCurve (Some lc) (Some lp) ∈ segs)).
Proof.
  intros Hnodup Hi Hj Hlt Hparent Hfuel.
  destruct (calculateLanes_enough fuel commits Hfuel) as [lanes Hlanes].
  destruct (calculateLanes_total fuel commits lanes child Hlanes)
    as [lc Hlc]; [by eapply list_elem_of_lookup_2|].
  destruct (calculateLanes_total fuel commits lanes parent Hlanes)
    as [lp Hlp]; [by eapply list_elem_of_lookup_2|].
  destruct (edge_rows commits lanes headCommitHash i j child parent lc lp)
    as (Hrow_i & Hrows & Hrow_j); [done..|].
  exists lanes, lc, lp. split_and!; [done..| |done].
  intros k c Hik Hkj Hk.
  destruct (Hrows k c Hik Hkj Hk) as (segs & Hsegs & Hpass).
  exists segs. split; [done|]. apply Hpass.
  (* the commit of row [k] is not in the lane reserved for [parent] *)
  assert ((drop (S k) commits) !! (j - S k) = Some parent) as Hj'.
  { rewrite lookup_drop. rewrite <-Hj. f_equal. lia. }
  pose proof (take_drop_middle _ _ _ Hk) as Hsplit.
  pose proof (take_drop_middle _ _ _ Hj') as Hsplit'.
  rewrite <-Hsplit' in Hsplit. rewrite <-Hsplit in Hlanes, Hnodup.
  destruct (open_branch_lanes _ _ _ _ _ _ _ Hlanes Hnodup)
    as (l1 & l2 & Hl1 & Hl2 & Hne).
  { apply Exists_exists. exists child.
    split; [by eapply elem_of_take_lookup | done]. }
  rewrite Hl1. intros [= ->]. congruence.
Qed.

Lemma every_edge_is_drawn_witness :
  ∃ lanes lc lp,
    calculateLanes 5 scenario = Some lanes ∧
    lanes !! hash (commitOf "C2" ["C3"; "C4"]) = Some lc ∧
    lanes !! hash (commitOf "C4" ["C5"]) = Some lp ∧
    (∃ segs,
       GraphCanvas (commitOf "C2" ["C3"; "C4"]) 1 scenario lanes (Some "C1")
         = Some segs ∧
       LowerHalf (Some lc) ∈ segs ∧
       (lc ≠ lp → OutgoingCurve (Some lc) lp ∈ segs)) ∧
    (∀ k c, 1 < k → k < 3 → scenario !! k = Some c →
       ∃ segs,
         GraphCanvas c k scenario lanes (Some "C1") = Some segs ∧
         Passthrough lp ∈ segs) ∧
    (∃ segs,
       GraphCanvas (commitOf "C4" ["C5"]) 3 scenario lanes (Some "C1")
         = Some segs ∧
       UpperHalf (Some lp) ∈ segs ∧
       (lc ≠ lp → IncomingCurve (Some lc) (Some lp) ∈ segs)).
Proof.
  refine (every_edge_is_drawn scenario 5 (Some "C1") 1 3
            (commitOf "C2" ["C3"; "C4"]) (commitOf "C4" ["C5"]) _ _ _ _ _ _).
  - compute_done.
  - reflexivity.
  - reflexivity.
  - lia.
  - compute_done.
  - simpl. lia.
Defined.

Lemma find_first {A} (f : A → bool) (l : list A) :
  match List.find f l with
  | Some x =>
      ∃ i, l !! i = Some x ∧ f x = true ∧
           ∀ k y, k < i → l !! k = Some y → f y = false
  | None => Forall (λ y, f y = false) l
  end.
Proof.
  induction l as [|a l IH]; simpl; [done|].
  destruct (f a) eqn:Ha.
  - exists 0. split_and!; [done..|]. intros k y ?. lia.
  - destruct (List.find f l) as [x|].
    + destruct IH as (i & Hi & Hx & Hfirst). exists (S i).
      split_and!; [done..|].
      intros [|k] y ? Hk; simplify_eq/=; [done|].
      eapply Hfirst; [|done]. lia.
    + by constructor.
Qed.

(** A row's drawing is its lines followed by its marker. *)
Lemma GraphCanvas_marker commit index commits commitLanes headCommitHash segs :
  GraphCanvas commit index commits commitLanes headCommitHash = Some segs →
  ∃ lines,
    segs = lines ++ [if decide (Some (hash commit) = headCommitHash)
                     then HeadRing (commitLanes !! hash commit)
                     else Dot (commitLanes !! hash commit)] ∧
    Forall (λ s, ∀ l, s ≠ HeadRing l ∧ s ≠ Dot l) lines.
Proof.
  unfold GraphCanvas.
  destruct (rowsBefore commits index) as [before|]; [|done]. simpl.
  intros [= <-]. eexists. split.
  { rewrite !app_assoc. f_equal. by case_decide. }
  rewrite !Forall_app. split_and!.
  - apply Forall_forall. intros s (c & Hs & _)%list_elem_of_bind.
    apply list_elem_of_bind in Hs as (q & Hs & _).
    unfold passthroughEdge in Hs.
    repeat case_match; try (by apply elem_of_nil in Hs).
    by apply list_elem_of_singleton in Hs as ->.
  - destruct (hasIncoming _ _ _); [|done]. by repeat constructor.
  - destruct (hasOutgoing _ _ _); [|done]. by repeat constructor.
  - apply Forall_forall. intros s (c & Hs & _)%list_elem_of_bind.
    unfold incomingCurve in Hs.
    repeat case_match; try (by apply elem_of_nil in Hs).
    by apply list_elem_of_singleton in Hs as ->.
  - apply Forall_forall. intros s (q & Hs & _)%list_elem_of_bind.
    unfold outgoingCurve in Hs.
    repeat case_match; try (by apply elem_of_nil in Hs).
    by apply list_elem_of_singleton in Hs as ->.
Qed.

(** On a non-empty list without repeated hashes exactly one row is drawn
    with the head ring: the first row whose commit bears a ref [HEAD] or
    [HEAD -> ...], or row 0 when no commit bears one. Every row ends with its
    marker, painted after all of its lines, and every other row's marker is
    the filled dot. *)
Theorem head_ring_on_one_row (commits : list GitCommit)
  (commitLanes : gmap string nat) :
  commits ≠ [] → NoDup (hash <$> commits) →
  ∃ i ci,
    commits !! i = Some ci ∧
    Page.headCommitHash commits = Some (hash ci) ∧
    ((existsb Page.isHeadRef (refs ci) = true ∧
      ∀ k c, k < i → commits !! k = Some c →
             existsb Page.isHeadRef (refs c) = false) ∨
     (i = 0 ∧
      Forall (λ c, existsb Page.isHeadRef (refs c) = false) commits)) ∧
    ∀ j c, commits !! j = Some c →
      ∃ lines,
        GraphCanvas c j commits commitLanes (Page.headCommitHash commits)
        = Some (lines ++ [if decide (j = i)
                          then HeadRing (commitLanes !! hash c)
                          else Dot (commitLanes !! hash c)]) ∧
        Forall (λ s, ∀ l, s ≠ HeadRing l ∧ s ≠ Dot l) lines.
Proof.
  intros Hne Hnodup.
  assert (∃ i ci,
    commits !! i = Some ci ∧ Page.headCommitHash commits = Some (hash ci) ∧
    ((existsb Page.isHeadRef (refs ci) = true ∧
      ∀ k c, k < i → commits !! k = Some c →
             existsb Page.isHeadRef (refs c) = false) ∨
     (i = 0 ∧
      Forall (λ c, existsb Page.isHeadRef (refs c) = false) commits)))
    as (i & ci & Hi & Hhead & Hwhich).
  { unfold Page.headCommitHash.
    pose proof (find_first (λ c, existsb Page.isHeadRef (refs c)) commits)
      as Hfind.
    destruct (List.find _ commits) as [x|].
    - destruct Hfind as (i & Hi & Hx & Hfirst). exists i, x.
      split_and!; [done | done | by left].
    - destruct commits as [|c0 commits]; [done|]. exists 0, c0.
      split_and!; [done | done | by right]. }
  exists i, ci. split_and!; [done..|].
  intros j c Hj.
  destruct (GraphCanvas c j commits commitLanes (Page.headCommitHash commits))
    as [segs|] eqn:Hsegs.
  2:{ unfold GraphCanvas in Hsegs.
      rewrite rowsBefore_take in Hsegs; [done|].
      apply lookup_lt_Some in Hj. lia. }
  destruct (GraphCanvas_marker _ _ _ _ _ _ Hsegs) as (lines & -> & Hlines).
  exists lines. split; [|done]. do 3 f_equal. rewrite Hhead.
  destruct (decide (j = i)) as [->|Hji].
  - simplify_eq. by rewrite decide_True.
  - rewrite decide_False; [done|]. intros [= Hh]. apply Hji.
    eapply NoDup_lookup; [done| |].
    + by rewrite list_lookup_fmap, Hj.
    + by rewrite list_lookup_fmap, Hi, Hh.
Qed.

Lemma head_ring_on_one_row_witness :
  ∃ i ci,
    scenario !! i = Some ci ∧
    Page.headCommitHash scenario = Some (hash ci) ∧
    ((existsb Page.isHeadRef (refs ci) = true ∧
      ∀ k c, k < i → scenario !! k = Some c →
             existsb Page.isHeadRef (refs c) = false) ∨
     (i = 0 ∧
      Forall (λ c, existsb Page.isHeadRef (refs c) = false) scenario)) ∧
    ∀ j c, scenario !! j = Some c →
      ∃ lines,
        GraphCanvas c j scenario scenarioLanes (Page.headCommitHash scenario)
        = Some (lines ++ [if decide (j = i)
                          then HeadRing (scenarioLanes !! hash c)
                          else Dot (scenarioLanes !! hash c)]) ∧
        Forall (λ s, ∀ l, s ≠ HeadRing l ∧ s ≠ Dot l) lines.
Proof.
  refine (head_ring_on_one_row scenario scenarioLanes _ _).
  - discriminate.
  - compute_done.
Defined.

End canvas_edges.

(** ** HTML escaping *)

Section html.
Import Html.
Local Open Scope string_scope.

Lemma append_cons a s t : String a s ++ t = String a (s ++ t).
Proof. reflexivity. Qed.

Lemma append_assoc s t u : (s ++ t) ++ u = s ++ (t ++ u).
Proof.
  induction s as [|a s IH]; [done|]. by rewrite !append_cons, IH.
Qed.

Lemma replaceAll_app c by_ s1 s2 :
  replaceAll c by_ (s1 ++ s2) = replaceAll c by_ s1 ++ replaceAll c by_ s2.
Proof.
  induction s1 as [|a s1 IH]; [done|].
  rewrite append_cons. simpl. case_decide; rewrite IH.
  - by rewrite append_assoc.
  - by rewrite append_cons.
Qed.

Lemma replaceAll_single_ne c by_ a :
  a ≠ c → replaceAll c by_ (String a "") = String a "".
Proof. intros Hne. simpl. by rewrite decide_False. Qed.

(** Escaping goes character by character: [&] is replaced first, so the [&]
    of an entity written by a later replacement is never escaped again. *)
Lemma escapeHtml_cons a rest :
  escapeHtml (String a rest)
  = (if decide (a = "&"%char) then "&amp;"
     else if decide (a = "<"%char) then "&lt;"
     else if decide (a = ">"%char) then "&gt;"
     else if decide (a = dquote) then "&quot;"
     else if decide (a = "'"%char) then "&#039;"
     else String a "") ++ escapeHtml rest.
Proof.
  change (String a rest) with (String a "" ++ rest).
  unfold escapeHtml. rewrite !replaceAll_app. f_equal.
  repeat (case_decide; [by subst|rewrite replaceAll_single_ne by done]).
  done.
Qed.

Lemma esc_cons a rest :
  esc (String a rest)
  = (if decide (a = "&"%char) then "&amp;"
     else if decide (a = "<"%char) then "&lt;"
     else if decide (a = ">"%char) then "&gt;"
     else if decide (a = dquote) then "&quot;"
     else String a "") ++ esc rest.
Proof.
  change (String a rest) with (String a "" ++ rest).
  unfold esc. rewrite !replaceAll_app. f_equal.
  repeat (case_decide; [by subst|rewrite replaceAll_single_ne by done]).
  done.
Qed.

Lemma escHtml_cons a rest :
  escHtml (String a rest)
  = (if decide (a = "&"%char) then "&amp;"
     else if decide (a = "<"%char) then "&lt;"
     else if decide (a = ">"%char) then "&gt;"
     else String a "") ++ escHtml rest.
Proof.
  change (String a rest) with (String a "" ++ rest).
  unfold escHtml. rewrite !replaceAll_app. f_equal.
  repeat (case_decide; [by subst|rewrite replaceAll_single_ne by done]).
  done.
Qed.

Lemma chars_app s t : chars (s ++ t) = (chars s ++ chars t)%list.
Proof.
  unfold chars. induction s as [|a s IH]; [done|].
  rewrite append_cons. simpl. by rewrite IH.
Qed.

(** [escapeHtml] works character by character: each of [&], [<], [>], the
    double quote and the apostrophe becomes its entity and every other
    character is kept, the five successive replacements never touching one
    another's output. *)
Theorem escapeHtml_by_character (a : ascii) (rest : string) :
  escapeHtml "" = "" ∧
  escapeHtml (String a rest)
  = (if decide (a = "&"%char) then "&amp;"
     else if decide (a = "<"%char) then "&lt;"
     else if decide (a = ">"%char) then "&gt;"
     else if decide (a = dquote) then "&quot;"
     else if decide (a = "'"%char) then "&#039;"
     else String a "") ++ escapeHtml rest.
Proof.
  split; [done|].
  change (String a rest) with (String a "" ++ rest).
  unfold escapeHtml. rewrite !replaceAll_app. f_equal.
  repeat (case_decide; [by subst|rewrite replaceAll_single_ne by done]).
  done.
Qed.

(** The output of [escapeHtml] holds no [<], [>], double quote or
    apostrophe; that of [esc] no [<], [>] or double quote; that of [escHtml]
    no [<] or [>]. *)
Theorem escaped_text_has_no_markup (text : string) :
  Forall (λ c, c ≠ "<"%char ∧ c ≠ ">"%char ∧ c ≠ dquote ∧ c ≠ "'"%char)
         (chars (escapeHtml text)) ∧
  Forall (λ c, c ≠ "<"%char ∧ c ≠ ">"%char ∧ c ≠ dquote) (chars (esc text)) ∧
  Forall (λ c, c ≠ "<"%char ∧ c ≠ ">"%char) (chars (escHtml text)).
Proof.
  split_and!; induction text as [|a text IH]; try by constructor.
  - rewrite escapeHtml_cons, chars_app. apply Forall_app. split; [|done].
    repeat (case_decide; [by repeat constructor|]). by repeat constructor.
  - rewrite esc_cons, chars_app. apply Forall_app. split; [|done].
    repeat (case_decide; [by repeat constructor|]). by repeat constructor.
  - rewrite escHtml_cons, chars_app. apply Forall_app. split; [|done].
    repeat (case_decide; [by repeat constructor|]). by repeat constructor.
Qed.

(** [escapeHtml] loses nothing: two texts with the same escaped form are
    the same text. *)
Theorem escapeHtml_injective (s1 s2 : string) :
  escapeHtml s1 = escapeHtml s2 → s1 = s2.
Proof.
  revert s2. induction s1 as [|a1 s1 IH]; intros [|a2 s2].
  - done.
  - rewrite escapeHtml_cons. change (escapeHtml "") with "".
    repeat (case_decide; [done|]). done.
  - rewrite escapeHtml_cons. change (escapeHtml "") with "".
    repeat (case_decide; [done|]). done.
  - rewrite !escapeHtml_cons.
    repeat (case_decide; subst); rewrite ?append_cons;
      intros Heq; simplify_eq/=; try done; f_equal; by apply IH.
Qed.

Lemma escapeHtml_injective_witness : "a<b&c" = "a<b&c".
Proof. apply (escapeHtml_injective "a<b&c" "a<b&c"). reflexivity. Defined.

End html.

(** ** Reading the log *)

Section gitlog.
Import Html GitLog.
Local Open Scope string_scope.

Lemma splitOn_length c s :
  length (splitOn c s) = S (length (filter (λ a, a = c) (chars s))).
Proof.
  unfold chars. induction s as [|a s IH]; [done|]. simpl.
  rewrite filter_cons. case_decide; simpl; [by rewrite IH|].
  destruct (splitOn c s); simpl in *; lia.
Qed.

Lemma splitOn_app_sep c f rest :
  c ∉ chars f → splitOn c (f ++ String c rest) = f :: splitOn c rest.
Proof.
  unfold chars. induction f as [|a f IH]; intros Hnot.
  - simpl. by rewrite decide_True.
  - rewrite append_cons. simpl in *.
    apply not_elem_of_cons in Hnot as [? ?].
    rewrite decide_False by done. by rewrite IH.
Qed.

Lemma splitOn_no_sep c f : c ∉ chars f → splitOn c f = [f].
Proof.
  unfold chars. induction f as [|a f IH]; intros Hnot; [done|].
  simpl in *. apply not_elem_of_cons in Hnot as [? ?].
  rewrite decide_False by done. by rewrite IH.
Qed.

Lemma join_splitOn c s : join (String c "") (splitOn c s) = s.
Proof.
  induction s as [|a s IH]; [done|]. simpl. case_decide.
  - subst. destruct (splitOn c s) as [|x xs] eqn:Hs.
    + pose proof (splitOn_length c s) as Hlen. rewrite Hs in Hlen. done.
    + by rewrite <-IH.
  - destruct (splitOn c s) as [|x [|y ys]] eqn:Hs.
    + pose proof (splitOn_length c s) as Hlen. rewrite Hs in Hlen. done.
    + simpl in *. by subst.
    + rewrite <-IH. reflexivity.
Qed.

Lemma splitOn_join c (ps : list string) :
  ps ≠ [] → Forall (λ p, c ∉ chars p) ps →
  splitOn c (join (String c "") ps) = ps.
Proof.
  induction ps as [|p ps IH]; [done|]. intros _ [Hp Hps]%Forall_cons.
  destruct ps as [|q ps]; [by apply splitOn_no_sep|].
  change (join (String c "") (p :: q :: ps))
    with (p ++ String c (join (String c "") (q :: ps))).
  rewrite splitOn_app_sep by done. by rewrite IH.
Qed.

Lemma splitOn_join_cons c f (rest : list string) :
  c ∉ chars f → rest ≠ [] →
  splitOn c (join (String c "") (f :: rest))
  = f :: splitOn c (join (String c "") rest).
Proof.
  intros Hf Hrest. destruct rest as [|x rest]; [done|].
  change (join (String c "") (f :: x :: rest))
    with (f ++ String c (join (String c "") (x :: rest))).
  by apply splitOn_app_sep.
Qed.

(** A line of the log format [%H|%h|%P|%an|%ai|%D|%s] whose first six fields
    hold no [|] is cut into those fields, and the subject is restored whole,
    with every [|] it contains. *)
Theorem parseLine_fields (trim toLocaleString : string → string)
  (fullHash shortHash parents author date refs subject : string) :
  Forall (λ f, "|"%char ∉ chars f)
         [fullHash; shortHash; parents; author; date; refs] →
  parseLine trim toLocaleString
    (join "|" [fullHash; shortHash; parents; author; date; refs; subject])
  = Some (mkCommit (trim fullHash) (trim shortHash) (trim subject)
                   (toLocaleString date) (trim author)
                   (parseParents trim parents) (parseRefs trim refs)).
Proof.
  intros Hfields. unfold parseLine.
  repeat (apply Forall_cons in Hfields as [? Hfields]).
  repeat (rewrite splitOn_join_cons by done).
  change (join "|" [subject]) with subject.
  destruct (splitOn "|" subject) as [|x xs] eqn:Hs.
  { pose proof (splitOn_length "|" subject) as Hlen. by rewrite Hs in Hlen. }
  by rewrite <-Hs, join_splitOn.
Qed.

Lemma parseLine_fields_witness :
  parseLine (λ s, s) (λ s, s)
    (join "|" ["c0ffee"; "c0f"; ""; "A U Thor"; "2026-01-01"; "HEAD -> main";
               "a | b"])
  = Some (mkCommit "c0ffee" "c0f" "a | b" "2026-01-01" "A U Thor"
                   (parseParents (λ s, s) "")
                   (parseRefs (λ s, s) "HEAD -> main")).
Proof.
  refine (parseLine_fields (λ s, s) (λ s, s) "c0ffee" "c0f" "" "A U Thor"
            "2026-01-01" "HEAD -> main" "a | b" _).
  compute_done.
Defined.

(** A line with fewer than five [|] cannot be parsed: [refs] is [undefined]
    and the callback throws; any other line is parsed. *)
Theorem parseLine_needs_six_fields (trim toLocaleString : string → string)
  (line : string) :
  is_Some (parseLine trim toLocaleString line) ↔
  (5 ≤ length (filter (λ a, a = "|"%char) (chars line)))%nat.
Proof.
  unfold parseLine. pose proof (splitOn_length "|" line) as Hlen.
  destruct (splitOn "|" line) as [|? [|? [|? [|? [|? [|? ?]]]]]];
    simpl in Hlen; split; intros H; try lia; try (by inversion H);
    by eexists.
Qed.

(** The parents field: hashes separated by one space are read back as the
    list of those hashes, and the empty field of a root commit as no parent
    at all (not as one empty hash), for any [trim] that leaves the field and
    the hashes as they are. *)
Theorem parseParents_hashes (trim : string → string) (ps : list string) :
  trim (join " " ps) = join " " ps →
  Forall (λ p, trim p = p ∧ p ≠ "" ∧ " "%char ∉ chars p) ps →
  parseParents trim (join " " ps) = ps.
Proof.
  intros Hfield Hps. unfold parseParents, nonEmpty. rewrite Hfield.
  destruct ps as [|p ps].
  { simpl in *. rewrite Hfield. by rewrite filter_cons, decide_False by tauto. }
  rewrite splitOn_join; [|done|by eapply Forall_impl; [done|]; intros ? (?&?&?)].
  generalize (p :: ps) Hps. clear. intros l Hl.
  induction Hl as [|q qs (Hq & Hne & _) _ IH]; [done|].
  rewrite fmap_cons, filter_cons, Hq, decide_True by done.
  f_equal. apply IH.
Qed.

Lemma parseParents_hashes_witness :
  parseParents (λ s, s) (join " " ["c3"; "c4"]) = ["c3"; "c4"].
Proof.
  refine (parseParents_hashes (λ s, s) ["c3"; "c4"] _ _).
  - reflexivity.
  - compute_done.
Defined.

End gitlog.

(** ** From the range menu to git *)

Section extension.
Import Selection Page Extension.

(** The message of the range menu in a reachable state. *)
Lemma range_post (commits : list GitCommit) (st : pageState) (action : string) :
  reachable commits st → rangeMenuShown st = true →
  ∃ lo n oldest st',
    selectedIndices st = seq lo (S n) ∧ 1 ≤ n ∧
    lo + n < length commits ∧ commits !! (lo + n) = Some oldest ∧
    step commits st (RangeMenuClick (Some action))
    = Some (st', [PostRange
                    (mkRangeMessage action
                       (hash <$> take (S n) (drop lo commits))
                       (parents oldest !! 0))]).
Proof.
  intros (Hsel & _ & Hrange)%reachable_Inv Hshown.
  destruct (Hrange Hshown) as [Hlen _].
  destruct (rangeStartIndex st) as [a|];
    [|by rewrite Hsel in Hlen; simpl in Hlen; lia].
  destruct Hsel as (lo & n & Hseq & _ & _ & Hlt).
  rewrite Hseq, length_seq in Hlen.
  destruct (rangeMenuClick_seq commits lo n action Hlt)
    as (oldest & Holdest & Hclick).
  exists lo, n, oldest. eexists. split_and!; [done | lia | done | done |].
  cbn [step]. unfold rangeMenuItemClick. rewrite Hseq, Hclick. reflexivity.
Qed.

(** Squashing a range whose oldest commit has no parent runs no command:
    the page posts the request without a base and the provider answers with
    the error message, whatever its surroundings. *)
Theorem squash_of_root_range_is_refused
  (trim toLocaleString tmpFile : string → string)
  (commits : list GitCommit) (st : pageState) (p : provider) :
  reachable commits st → rangeMenuShown st = true →
  squashItemShown st = true →
  (∀ i c, last (selectedIndices st) = Some i → commits !! i = Some c →
          parents c = []) →
  ∃ st' m,
    step commits st (RangeMenuClick (Some "squashCommits"))
      = Some (st', [PostRange m]) ∧
    onRangeMessage trim toLocaleString tmpFile p m
      = Some (ShowErrorMessage
                "Cannot squash: oldest selected commit has no parent." Return).
Proof.
  intros Hreach Hshown _ Hroot.
  destruct (range_post commits st "squashCommits" Hreach Hshown)
    as (lo & n & oldest & st' & Hseq & _ & _ & Holdest & Hstep).
  eexists _, _. split; [done|].
  rewrite (Hroot (lo + n) oldest); [done| |done].
  by rewrite Hseq, seq_S, last_snoc.
Qed.

Lemma reachable_root_range :
  reachable rootRange (mkPage None None (Some 0) [0; 1] false true true).
Proof.
  apply (reachable_step rootRange
           (mkPage None None (Some 0) [0; 1] false false true)
           (TbodyContextMenu (Some (mkRow 1 "B"))) _ []);
    [|by intros r [= <-]; apply elem_of_rows; eexists|reflexivity].
  apply (reachable_step rootRange
           (mkPage None None (Some 0) [0] false false true)
           (TbodyClick (Some (mkRow 1 "B")) true) _ []);
    [|by intros r [= <-]; apply elem_of_rows; eexists|reflexivity].
  apply (reachable_step rootRange initial
           (TbodyClick (Some (mkRow 0 "A")) false) _ []);
    [|by intros r [= <-]; apply elem_of_rows; eexists|reflexivity].
  constructor.
Qed.

Lemma squash_of_root_range_is_refused_witness :
  ∃ st' m,
    step rootRange (mkPage None None (Some 0) [0; 1] false true true)
         (RangeMenuClick (Some "squashCommits"))
      = Some (st', [PostRange m]) ∧
    onRangeMessage (λ s, s) (λ s, s) (λ s, s)
                   (mkProvider true false None (Some "/repo")) m
      = Some (ShowErrorMessage
                "Cannot squash: oldest selected commit has no parent." Return).
Proof.
  apply (squash_of_root_range_is_refused (λ s, s) (λ s, s) (λ s, s) rootRange _
           (mkProvider true false None (Some "/repo")) reachable_root_range).
  - reflexivity.
  - reflexivity.
  - intros i c [= <-] [= <-]. reflexivity.
Defined.

Lemma allButLast_fmap_take {A} (f : A → string) (l : list A) (n : nat) :
  n < length l →
  allButLast (f <$> take (S n) l) = f <$> take n l.
Proof.
  intros Hlt. unfold allButLast.
  rewrite length_fmap, length_take_le by lia.
  rewrite <-fmap_take, take_take. f_equal. f_equal. lia.
Qed.

(** What a squash of the selected run [lo .. lo + n] does in a workspace,
    with the first parent [base] of the run's oldest commit as base. It asks
    for the new message and stops on none; with one it runs
    [git rev-parse HEAD]. When that prints the hash of the run's newest
    commit, it runs a soft reset to [base] and, the reset done, a commit with
    the new message; a failure of either is reported and ends the method, and
    after the commit the success is reported and the views are refreshed.
    Otherwise (also when [git rev-parse] fails) it writes the two editor
    scripts, the sequence editor squashing the [n] newer commits of the run,
    and runs an interactive rebase onto [base] with them; when that ends it
    removes the scripts, and after a failure aborts the rebase and reports,
    after a success reports and refreshes the views. *)
Theorem squash_of_run (trim toLocaleString tmpFile : string → string)
  (commits : list GitCommit) (st : pageState) (p : provider) (cwd : string) :
  reachable commits st → rangeMenuShown st = true →
  squashItemShown st = true →
  workspaceFolders p = Some cwd →
  ∃ lo n newest oldest st' m,
    selectedIndices st = seq lo (S n) ∧
    commits !! lo = Some newest ∧ commits !! (lo + n) = Some oldest ∧
    step commits st (RangeMenuClick (Some "squashCommits"))
      = Some (st', [PostRange m]) ∧
    ∀ base, parents oldest !! 0 = Some base → base ≠ ""%string →
      ∃ validateInput resume,
        onRangeMessage trim toLocaleString tmpFile p m
          = Some (ShowInputBox
                    ("Squash " ++ pretty (S n) ++ " commits into one")%string
                    "New commit message" validateInput resume) ∧
        (∀ v, validateInput v
              = if decide (v = ""%string ∨ trim v = ""%string)
                then Some "Message cannot be empty"%string else None) ∧
        resume None = Return ∧ resume (Some ""%string) = Return ∧
        ∀ newMessage, newMessage ≠ ""%string →
          ∃ onHead onReset onCommit onRebase onAbort,
            resume (Some newMessage)
              = Exec "git rev-parse HEAD" cwd None onHead Return ∧
            (∀ r, onHead r =
               if decide (hash newest
                          = match error r with
                            | Some _ => ""%string
                            | None => trim (stdout r)
                            end)
               then
                 Exec ("git reset --soft " ++ base)%string cwd None onReset
                      Return
               else
                 WriteFileSync (tmpFile "git-plus-seq-editor.js")
                   (SeqEditorScript (hash <$> take n (drop lo commits)))
                   (WriteFileSync (tmpFile "git-plus-msg-editor.js")
                      (MsgEditorScript (newMessage ++ String "010" "")%string)
                      (Exec ("git rebase -i " ++ base)%string cwd
                         (Some
                            (("node " ++ String Html.dquote
                                (tmpFile "git-plus-seq-editor.js"
                                   ++ String Html.dquote ""))%string,
                             ("node " ++ String Html.dquote
                                (tmpFile "git-plus-msg-editor.js"
                                   ++ String Html.dquote ""))%string))
                         onRebase Return))) ∧
            (∀ r, onReset r =
               match error r with
               | Some message =>
                   ShowErrorMessage ("Failed to squash: " ++ message)%string
                                    Return
               | None =>
                   Exec ("git commit -m "
                           ++ String Html.dquote
                                (Html.replaceAll Html.dquote
                                   (String "\" (String Html.dquote ""))
                                   newMessage)
                           ++ String Html.dquote "")%string
                        cwd None onCommit Return
               end) ∧
            (∀ r, onCommit r =
               match error r with
               | Some message =>
                   ShowErrorMessage
                     ("Failed to commit squash: " ++ message)%string Return
               | None =>
                   ShowInformationMessage
                     ("Squashed " ++ pretty (S n)
                        ++ " commits successfully")%string
                     (refresh trim toLocaleString p)
               end) ∧
            (∀ r, onRebase r =
               UnlinkSync (tmpFile "git-plus-seq-editor.js")
                 (UnlinkSync (tmpFile "git-plus-msg-editor.js")
                    match error r with
                    | Some message =>
                        Exec "git rebase --abort" cwd None onAbort
                          (ShowErrorMessage
                             ("Failed to squash: " ++ message
                                ++ String "010" (stderr r))%string
                             Return)
                    | None =>
                        ShowInformationMessage
                          ("Squashed " ++ pretty (S n)
                             ++ " commits successfully")%string
                          (refresh trim toLocaleString p)
                    end)) ∧
            (∀ r, onAbort r = Return).
Proof.
  intros Hreach Hshown _ Hws.
  destruct (range_post commits st "squashCommits" Hreach Hshown)
    as (lo & n & oldest & st' & Hseq & ? & Hlt & Holdest & Hstep).
  destruct (lookup_lt_is_Some_2 commits lo) as [newest Hnewest]; [lia|].
  exists lo, n, newest, oldest. eexists _, _.
  split_and!; [done..|]. intros base Hbase Hne.
  assert (length (hash <$> take (S n) (drop lo commits)) = S n) as Hcount.
  { rewrite length_fmap, length_take_le; [done|]. rewrite length_drop. lia. }
  assert ((hash <$> take (S n) (drop lo commits)) !! 0 = Some (hash newest))
    as Hfirst.
  { by rewrite list_lookup_fmap, lookup_take_lt, lookup_drop, Nat.add_0_r,
      Hnewest by lia. }
  pose proof (allButLast_fmap_take hash (drop lo commits) n) as Hrest.
  rewrite length_drop in Hrest. specialize (Hrest ltac:(lia)).
  unfold onRangeMessage, squashCommits. cbn [command hashes parentHash].
  rewrite decide_True by done.
  rewrite Hbase, decide_False, Hws, Hcount by done.
  eexists _, _. split; [reflexivity|]. cbn beta.
  split; [done|]. split; [done|]. split; [done|].
  intros newMessage Hmsg. rewrite decide_False by done.
  eexists _, _, _, _, (λ _, Return).
  split; [reflexivity|]. cbn beta zeta.
  split_and!; [|intros r; reflexivity..].
  intros r. rewrite Hfirst, Hrest.
  destruct (decide (hash newest = _)) as [Heq|Hneq].
  - rewrite decide_True by congruence. reflexivity.
  - rewrite decide_False by congruence. reflexivity.
Qed.

Lemma squash_of_run_witness :
  ∃ lo n newest oldest st' m,
    selectedIndices (mkPage None None (Some 0) [0; 1] false true true)
      = seq lo (S n) ∧
    scenario !! lo = Some newest ∧ scenario !! (lo + n) = Some oldest ∧
    step scenario (mkPage None None (Some 0) [0; 1] false true true)
         (RangeMenuClick (Some "squashCommits"))
      = Some (st', [PostRange m]) ∧
    ∀ base, parents oldest !! 0 = Some base → base ≠ ""%string →
      ∃ validateInput resume,
        onRangeMessage (λ s, s) (λ s, s) (λ s, ("/tmp/" ++ s)%string)
                       (mkProvider true false None (Some "/repo")) m
          = Some (ShowInputBox
                    ("Squash " ++ pretty (S n) ++ " commits into one")%string
                    "New commit message" validateInput resume) ∧
        (∀ v, validateInput v
              = if decide (v = ""%string ∨ v = ""%string)
                then Some "Message cannot be empty"%string else None) ∧
        resume None = Return ∧ resume (Some ""%string) = Return ∧
        ∀ newMessage, newMessage ≠ ""%string →
          ∃ onHead onReset onCommit onRebase onAbort,
            resume (Some newMessage)
              = Exec "git rev-parse HEAD" "/repo" None onHead Return ∧
            (∀ r, onHead r =
               if decide (hash newest
                          = match error r with
                            | Some _ => ""%string
                            | None => stdout r
                            end)
               then
                 Exec ("git reset --soft " ++ base)%string "/repo" None onReset
                      Return
               else
                 WriteFileSync "/tmp/git-plus-seq-editor.js"
                   (SeqEditorScript (hash <$> take n (drop lo scenario)))
                   (WriteFileSync "/tmp/git-plus-msg-editor.js"
                      (MsgEditorScript (newMessage ++ String "010" "")%string)
                      (Exec ("git rebase -i " ++ base)%string "/repo"
                         (Some
                            (("node " ++ String Html.dquote
                                ("/tmp/git-plus-seq-editor.js"
                                   ++ String Html.dquote ""))%string,
                             ("node " ++ String Html.dquote
                                ("/tmp/git-plus-msg-editor.js"
                                   ++ String Html.dquote ""))%string))
                         onRebase Return))) ∧
            (∀ r, onReset r =
               match error r with
               | Some message =>
                   ShowErrorMessage ("Failed to squash: " ++ message)%string
                                    Return
               | None =>
                   Exec ("git commit -m "
                           ++ String Html.dquote
                                (Html.replaceAll Html.dquote
                                   (String "\" (String Html.dquote ""))
                                   newMessage)
                           ++ String Html.dquote "")%string
                        "/repo" None onCommit Return
               end) ∧
            (∀ r, onCommit r =
               match error r with
               | Some message =>
                   ShowErrorMessage
                     ("Failed to commit squash: " ++ message)%string Return
               | None =>
                   ShowInformationMessage
                     ("Squashed " ++ pretty (S n)
                        ++ " commits successfully")%string
                     (refresh (λ s, s) (λ s, s)
                              (mkProvider true false None (Some "/repo")))
               end) ∧
            (∀ r, onRebase r =
               UnlinkSync "/tmp/git-plus-seq-editor.js"
                 (UnlinkSync "/tmp/git-plus-msg-editor.js"
                    match error r with
                    | Some message =>
                        Exec "git rebase --abort" "/repo" None onAbort
                          (ShowErrorMessage
                             ("Failed to squash: " ++ message
                                ++ String "010" (stderr r))%string
                             Return)
                    | None =>
                        ShowInformationMessage
                          ("Squashed " ++ pretty (S n)
                             ++ " commits successfully")%string
                          (refresh (λ s, s) (λ s, s)
                                   (mkProvider true false None (Some "/repo")))
                    end)) ∧
            (∀ r, onAbort r = Return).
Proof.
  apply (squash_of_run (λ s, s) (λ s, s) (λ s, ("/tmp/" ++ s)%string) scenario _
           (mkProvider true false None (Some "/repo")) "/repo"
           reachable_range_menu).
  - reflexivity.
  - reflexivity.
  - reflexivity.
Defined.

(** Cherry-picking the selected run [lo .. lo + n] in a workspace applies its
    commits from the oldest (row [lo + n]) to the newest (row [lo]), in one
    command and nothing else in that turn; when the command has ended, a
    failure is reported with the error and what the command wrote to
    [stderr], and a success is reported with the number of commits and
    followed by the refresh of the views. *)
Theorem cherry_pick_range_oldest_first
  (trim toLocaleString tmpFile : string → string)
  (commits : list GitCommit) (st : pageState) (p : provider) (cwd : string) :
  reachable commits st → rangeMenuShown st = true →
  workspaceFolders p = Some cwd →
  ∃ lo n st' m callback,
    selectedIndices st = seq lo (S n) ∧
    step commits st (RangeMenuClick (Some "cherryPickRange"))
      = Some (st', [PostRange m]) ∧
    onRangeMessage trim toLocaleString tmpFile p m
      = Some (Exec ("git cherry-pick "
                      ++ GitLog.join " "
                           (hash <$> reverse (take (S n) (drop lo commits))))%string
                   cwd None callback Return) ∧
    ∀ r, callback r =
      match error r with
      | Some message =>
          ShowErrorMessage
            ("Failed to cherry-pick: " ++ message
               ++ String "010" (stderr r))%string
            Return
      | None =>
          ShowInformationMessage
            ("Cherry-picked " ++ pretty (S n) ++ " commits successfully")%string
            (refresh trim toLocaleString p)
      end.
Proof.
  intros Hreach Hshown Hws.
  destruct (range_post commits st "cherryPickRange" Hreach Hshown)
    as (lo & n & oldest & st' & Hseq & ? & Hlt & _ & Hstep).
  assert (length (hash <$> take (S n) (drop lo commits)) = S n) as Hcount.
  { rewrite length_fmap, length_take_le; [done|]. rewrite length_drop. lia. }
  exists lo, n. eexists _, _, _. split_and!; [done..| |].
  - unfold onRangeMessage, cherryPickRange. cbn [command hashes].
    rewrite decide_False, decide_True by done.
    rewrite Hws, Hcount, <-fmap_reverse. reflexivity.
  - intros r. reflexivity.
Qed.

Lemma cherry_pick_range_oldest_first_witness :
  ∃ lo n st' m callback,
    selectedIndices (mkPage None None (Some 0) [0; 1] false true true)
      = seq lo (S n) ∧
    step scenario (mkPage None None (Some 0) [0; 1] false true true)
         (RangeMenuClick (Some "cherryPickRange"))
      = Some (st', [PostRange m]) ∧
    onRangeMessage (λ s, s) (λ s, s) (λ s, s)
                   (mkProvider true true None (Some "/repo")) m
      = Some (Exec ("git cherry-pick "
                      ++ GitLog.join " "
                           (hash <$> reverse (take (S n) (drop lo scenario))))%string
                   "/repo" None callback Return) ∧
    ∀ r, callback r =
      match error r with
      | Some message =>
          ShowErrorMessage
            ("Failed to cherry-pick: " ++ message
               ++ String "010" (stderr r))%string
            Return
      | None =>
          ShowInformationMessage
            ("Cherry-picked " ++ pretty (S n) ++ " commits successfully")%string
            (refresh (λ s, s) (λ s, s)
                     (mkProvider true true None (Some "/repo")))
      end.
Proof.
  apply (cherry_pick_range_oldest_first (λ s, s) (λ s, s) (λ s, s) scenario _
           (mkProvider true true None (Some "/repo")) "/repo"
           reachable_range_menu).
  - reflexivity.
  - reflexivity.
Defined.

End extension.

(** ** The canvas and the markers *)

Section marker.
Import Lanes Canvas Renderer Marker.

(** The canvas is wide enough for every marker: for each commit of a
    non-empty list the disc of radius [COMMIT_RADIUS] around its centre, and
    the square cleared under a head ring, lie between 0 and the canvas
    width. *)
Theorem markers_fit_in_canvas (commits : list GitCommit) (fuel : nat) :
  commits ≠ [] → parentCount commits ≤ fuel →
  ∃ lanes canvasWidth,
    calculateLanes fuel commits = Some lanes ∧
    canvasWidthOf lanes = Some canvasWidth ∧
    ∀ c, c ∈ commits →
      ∃ lane, lanes !! hash c = Some lane ∧
        (0 ≤ clearedFrom lane)%Z ∧
        (clearedFrom lane + Z.of_nat clearedWidth ≤ Z.of_nat canvasWidth)%Z ∧
        COMMIT_RADIUS ≤ dotX lane ∧
        dotX lane + COMMIT_RADIUS ≤ canvasWidth.
Proof.
  intros Hne Hfuel.
  destruct (calculateLanes_enough fuel commits Hfuel) as [lanes Hlanes].
  destruct (canvasWidthOf_spec lanes) as (maxLane & Hwidth & _ & Hall).
  { destruct commits as [|c commits]; [done|].
    destruct (calculateLanes_total fuel (c :: commits) lanes c Hlanes)
      as [l Hl]; [by left|].
    intros ->. by rewrite lookup_empty in Hl. }
  exists lanes, ((maxLane + 1) * LANE_WIDTH + 12).
  split_and!; [done..|]. intros c Hc.
  destruct (calculateLanes_total fuel commits lanes c Hlanes Hc) as [lane Hl].
  exists lane. split; [done|]. apply Hall in Hl.
  unfold clearedFrom, clearedWidth, dotX, COMMIT_RADIUS, LANE_WIDTH.
  split_and!; lia.
Qed.

Lemma markers_fit_in_canvas_witness :
  ∃ lanes canvasWidth,
    calculateLanes 5 scenario = Some lanes ∧
    canvasWidthOf lanes = Some canvasWidth ∧
    ∀ c, c ∈ scenario →
      ∃ lane, lanes !! hash c = Some lane ∧
        (0 ≤ clearedFrom lane)%Z ∧
        (clearedFrom lane + Z.of_nat clearedWidth ≤ Z.of_nat canvasWidth)%Z ∧
        COMMIT_RADIUS ≤ dotX lane ∧
        dotX lane + COMMIT_RADIUS ≤ canvasWidth.
Proof.
  apply (markers_fit_in_canvas scenario 5).
  - discriminate.
  - simpl. lia.
Defined.

End marker.
